(** * x2md: the content rendering engine

    A shallow embedding of the two converters of x2md, the Draft.js block
    renderer ([DraftJSToMarkdown], [applyInlineStyles], [renderAtomicBlock],
    [buildMediaLookup]), the entity-map key decoder ([FlexInt.UnmarshalJSON])
    and the HTML fragment renderer ([HTMLToMarkdown]), with the properties
    the specification states about them; then the thread traversal
    ([FetchThread], [reverse]), the URL parser ([ParseURL]) and the
    escaping of front-matter values ([yamlEscape]), with properties read
    off the code.

    Conventions of the embedding:
    - a Go [string] that the code reads rune by rune is the list of its
      Unicode code points ([gostring]); the JSON decoder hands the renderer
      valid UTF-8 only, so [[]rune(text)] and its inverse are the identity
      on this representation;
    - a Go [int] is a [Z]; the additions that can leave the 64-bit range
      are wrapped explicitly ([int_add]);
    - Go maps are stdpp [gmap]s;
    - [sort.Slice] is not stable and its algorithm is not part of the
      program: it enters through its contract (class [SliceSorter]);
    - the expressions of package [regexp] are searched by a backtracking
      matcher, which finds the leftmost-first match the package returns;
    - [encoding/json], [strconv.Atoi] and the ampersand-free path of
      [html.UnescapeString] are modelled from their documentation; the
      entity table of [html.UnescapeString] stays a parameter;
    - the network is a state that the fetches thread through: [FetchTweet]
      and [strings.EqualFold] are parameters of the thread traversal. *)

From Stdlib Require Import ZArith NArith String Ascii List Lia.
From Stdlib Require Import DecimalString DecimalZ DecimalN DecimalPos DecimalFacts.
From stdpp Require Import base list gmap sorting.

Local Open Scope Z_scope.

(** ** Strings and integers *)

Abbreviation rune := N (only parsing).
Abbreviation gostring := (list N) (only parsing).

(** An ASCII literal of the source as a rune sequence. *)
Definition lit (s : string) : gostring :=
  map N_of_ascii (list_ascii_of_string s).

(** Go's [int] on a 64-bit platform: two's complement wrap-around. *)
Definition int_wrap (z : Z) : Z := (z + 2 ^ 63) mod 2 ^ 64 - 2 ^ 63.
Definition int_add (a b : Z) : Z := int_wrap (a + b).
Definition int_range (z : Z) : Prop := - 2 ^ 63 <= z < 2 ^ 63.

(** [fmt.Sprintf("%d", z)]: decimal digits, with a minus sign when negative. *)
Definition itoa (z : Z) : gostring := lit (NilZero.string_of_int (Z.to_int z)).

(** [strings.Join]. *)
Fixpoint Join (parts : list gostring) (sep : gostring) : gostring :=
  match parts with
  | [] => []
  | [p] => p
  | p :: ps => p ++ sep ++ Join ps sep
  end.

(** [strings.Split] for a one-rune separator: always at least one field. *)
Fixpoint SplitRune (s : gostring) (sep : N) : list gostring :=
  match s with
  | [] => [[]]
  | c :: s' =>
      if N.eqb c sep then [] :: SplitRune s' sep
      else match SplitRune s' sep with
           | [] => [[c]]
           | f :: fs => (c :: f) :: fs
           end
  end.

(** [unicode.IsSpace]: the White_Space property. *)
Definition isSpace (c : N) : bool :=
  ((9 <=? c) && (c <=? 13) || (c =? 32) || (c =? 133) || (c =? 160)
   || (c =? 5760) || (8192 <=? c) && (c <=? 8202) || (c =? 8232)
   || (c =? 8233) || (c =? 8239) || (c =? 8287) || (c =? 12288))%N.

Fixpoint TrimLeftSpace (s : gostring) : gostring :=
  match s with
  | c :: s' => if isSpace c then TrimLeftSpace s' else s
  | [] => []
  end.

(** [strings.TrimSpace]. *)
Definition TrimSpace (s : gostring) : gostring :=
  rev (TrimLeftSpace (rev (TrimLeftSpace s))).

(** ** Data model (the Draft.js part of the API types) *)

Record InlineStyleRange := {
  Offset : Z;
  Length : Z;
  Style : gostring
}.

Record EntityRange := {
  ERKey : Z;
  EROffset : Z;
  ERLength : Z
}.

Record Block := {
  Key : gostring;
  Text : gostring;
  Type_ : gostring;
  InlineStyleRanges : list InlineStyleRange;
  EntityRanges : list EntityRange
}.

Record EntityMediaRef := {
  LocalMediaID : gostring;
  RefMediaID : gostring
}.

Record EntityData := {
  EntityKey : gostring;
  MediaItems : list EntityMediaRef;
  URL : gostring
}.

Record EntityValue := {
  EType : gostring;
  Mutability : gostring;
  Data : EntityData
}.

(** [Key] is a [FlexInt], an [int] once decoded. *)
Record EntityMapItem := {
  ItemKey : Z;
  Value : EntityValue
}.

Record ArticleContent := {
  Blocks : list Block;
  EntityMap : list EntityMapItem
}.

Record MediaInfo := {
  TypeName : gostring;
  OriginalImgURL : gostring;
  OriginalImgWidth : Z;
  OriginalImgHeight : Z
}.

(** [MediaInfo] is a pointer: [None] is nil. *)
Record ArticleMedia := {
  ID : gostring;
  MediaKey : gostring;
  MediaID : gostring;
  MediaInfo_ : option MediaInfo
}.

(** ** Inline styles *)

(** A style boundary event. *)
Record styleRange := {
  pos : Z;
  style : gostring;
  start : bool
}.

(** The comparison handed to [sort.Slice]. *)
Definition eventLess (a b : styleRange) : bool :=
  if negb (pos a =? pos b) then pos a <? pos b
  else if negb (Bool.eqb (start a) (start b)) then negb (start a)
  else false.

(** What [sort.Slice] promises for a strict weak ordering: the result is a
    rearrangement of the slice in which no element is less than an earlier
    one.  Elements that compare equal may come out in any order. *)
Class SliceSorter := {
  sortSlice : list styleRange -> list styleRange;
  sortSlice_perm : forall l, sortSlice l ≡ₚ l;
  sortSlice_sorted : forall l,
    StronglySorted (fun a b => eventLess b a = false) (sortSlice l)
}.

(** [styleMarker]. *)
Definition styleMarker (s : gostring) : gostring :=
  if bool_decide (s = lit "Bold") || bool_decide (s = lit "BOLD") then lit "**"
  else if bool_decide (s = lit "Italic") || bool_decide (s = lit "ITALIC") then lit "*"
  else if bool_decide (s = lit "Code") || bool_decide (s = lit "CODE") then lit "`"
  else [].

(** The loop that collects the boundaries; [n] is [len(runes)]. *)
Definition collectEvents (n : Z) (styles : list InlineStyleRange) : list styleRange :=
  flat_map (fun s =>
    let e := int_add (Offset s) (Length s) in
    let e := if n <? e then n else e in
    [ {| pos := Offset s; style := Style s; start := true |};
      {| pos := e; style := Style s; start := false |} ]) styles.

(** The inner loop at position [p]: [evs] is [events[eventIdx:]]; the
    result is what was written and the events left. *)
Fixpoint emitAt (p : Z) (evs : list styleRange) : gostring * list styleRange :=
  match evs with
  | e :: evs' =>
      if pos e =? p then
        let '(w, rest) := emitAt p evs' in (styleMarker (style e) ++ w, rest)
      else ([], evs)
  | [] => ([], [])
  end.

(** The outer loop from position [p] to [n] inclusive; [runes] is
    [runes[p:]]. *)
Fixpoint sweep (p : Z) (runes : gostring) (evs : list styleRange)
  : gostring * list styleRange :=
  let '(w, evs') := emitAt p evs in
  match runes with
  | [] => (w, evs')
  | r :: rs =>
      let '(out, fin) := sweep (p + 1) rs evs' in (w ++ r :: out, fin)
  end.

Section InlineStyles.
Context `{SliceSorter}.

(** [applyInlineStyles]. *)
Definition applyInlineStyles (text : gostring) (styles : list InlineStyleRange)
  : gostring :=
  match styles with
  | [] => text
  | _ =>
      let n := Z.of_nat (length text) in
      fst (sweep 0 text (sortSlice (collectEvents n styles)))
  end.
End InlineStyles.

(** Go sorts a slice of at most twelve elements by insertion: element [x]
    moves down while it is less than its left neighbour.  [sink] works on
    the reversed prefix. *)
Fixpoint sink (x : styleRange) (revprefix : list styleRange) : list styleRange :=
  match revprefix with
  | y :: r => if eventLess x y then y :: sink x r else x :: revprefix
  | [] => [x]
  end.

Definition insertionSort (l : list styleRange) : list styleRange :=
  rev (fold_left (fun acc x => sink x acc) l []).

(** ** Text with inserted delimiters *)

(** [inserted ms out text]: [out] is [text] with the strings [ms] inserted,
    in this order, at some positions; deleting them gives [text] back. *)
Inductive inserted : list gostring -> gostring -> gostring -> Prop :=
| inserted_nil : inserted [] [] []
| inserted_rune c ms out text :
    inserted ms out text -> inserted ms (c :: out) (c :: text)
| inserted_marker m ms out text :
    inserted ms out text -> inserted (m :: ms) (m ++ out) text.

Definition markerOf (e : styleRange) : gostring := styleMarker (style e).

(** The markers of the events of [es] that sit at position [p]. *)
Definition markersAt (p : Z) (es : list styleRange) : gostring :=
  flat_map markerOf (filter (fun e => pos e = p) es).

(** The text with each event's marker placed in front of the rune at the
    event's position (or at the end, for position [n]). *)
Fixpoint weave (p : Z) (runes : gostring) (es : list styleRange) : gostring :=
  markersAt p es ++
  match runes with
  | [] => []
  | r :: rs => r :: weave (p + 1) rs es
  end.

(** The close and the open events of [es] at position [p]. *)
Definition closesAt (p : Z) (es : list styleRange) : list styleRange :=
  filter (fun e => pos e = p /\ start e = false) es.
Definition opensAt (p : Z) (es : list styleRange) : list styleRange :=
  filter (fun e => pos e = p /\ start e = true) es.

(** The invariant the data model states for a range over [n] code points. *)
Definition wellFormed (n : Z) (s : InlineStyleRange) : Prop :=
  0 <= Offset s /\ Offset s + Length s <= n.

(** Position order with closes in front of opens. *)
Definition closeFirst (a b : styleRange) : Prop :=
  pos a <= pos b /\ (pos a = pos b -> start a = true -> start b = true).

Definition mkStyle (o l : Z) (s : string) : InlineStyleRange :=
  {| Offset := o; Length := l; Style := lit s |}.

(** ** The block renderer *)

Definition nl : N := 10%N.

(** [buildMediaLookup]: media id to image URL. *)
Definition buildMediaLookup (entities : list ArticleMedia) : gmap (list N) (list N) :=
  fold_left (fun lookup e =>
    match MediaInfo_ e with
    | Some mi =>
        if negb (bool_decide (OriginalImgURL mi = []))
        then <[MediaID e := OriginalImgURL mi]> lookup
        else lookup
    | None => lookup
    end) entities ∅.

(** The loop of [DraftJSToMarkdown] that builds the entity lookup. *)
Definition buildEntityLookup (items : list EntityMapItem) : gmap Z EntityValue :=
  fold_left (fun lookup item => <[ItemKey item := Value item]> lookup) items ∅.

(** [renderMediaEntity]. *)
Definition renderMediaEntity (entity : EntityValue) (mediaLookup : gmap (list N) (list N))
  : gostring :=
  let images :=
    fold_left (fun images ref =>
      match mediaLookup !! RefMediaID ref with
      | Some url => images ++ [lit "![image](" ++ url ++ lit ")"]
      | None => images
      end) (MediaItems (Data entity)) [] in
  Join images [nl; nl].

(** The loop of [renderAtomicBlock] over the entity ranges still to visit. *)
Fixpoint scanEntityRanges (ers : list EntityRange)
    (entityLookup : gmap Z EntityValue) (mediaLookup : gmap (list N) (list N))
  : gostring :=
  match ers with
  | [] => []
  | er :: ers' =>
      match entityLookup !! ERKey er with
      | None => scanEntityRanges ers' entityLookup mediaLookup
      | Some entity =>
          if bool_decide (EType entity = lit "MEDIA")
          then renderMediaEntity entity mediaLookup
          else if bool_decide (EType entity = lit "DIVIDER")
          then lit "---"
          else scanEntityRanges ers' entityLookup mediaLookup
      end
  end.

(** [renderAtomicBlock]. *)
Definition renderAtomicBlock (block : Block)
    (entityLookup : gmap Z EntityValue) (mediaLookup : gmap (list N) (list N))
  : gostring :=
  scanEntityRanges (EntityRanges block) entityLookup mediaLookup.

Section Blocks.
Context `{SliceSorter}.

Definition flat (block : Block) : gostring :=
  applyInlineStyles (Text block) (InlineStyleRanges block).

(** One iteration of the loop over the blocks: the state is [parts] and
    [olCounter]. *)
Definition blockStep (entityLookup : gmap Z EntityValue)
    (mediaLookup : gmap (list N) (list N))
    (st : list gostring * Z) (block : Block) : list gostring * Z :=
  let '(parts, olCounter) := st in
  let ty := Type_ block in
  if bool_decide (ty = lit "header-one") then (parts ++ [lit "# " ++ flat block], 0)
  else if bool_decide (ty = lit "header-two") then (parts ++ [lit "## " ++ flat block], 0)
  else if bool_decide (ty = lit "header-three") then (parts ++ [lit "### " ++ flat block], 0)
  else if bool_decide (ty = lit "header-four") then (parts ++ [lit "#### " ++ flat block], 0)
  else if bool_decide (ty = lit "header-five") then (parts ++ [lit "##### " ++ flat block], 0)
  else if bool_decide (ty = lit "header-six") then (parts ++ [lit "###### " ++ flat block], 0)
  else if bool_decide (ty = lit "blockquote") then
    let lines := SplitRune (flat block) nl in
    let quoted := fold_left (fun quoted line => quoted ++ [lit "> " ++ line]) lines [] in
    (parts ++ [Join quoted [nl]], 0)
  else if bool_decide (ty = lit "unordered-list-item") then
    (parts ++ [lit "- " ++ flat block], 0)
  else if bool_decide (ty = lit "ordered-list-item") then
    let olCounter := int_add olCounter 1 in
    (parts ++ [itoa olCounter ++ lit ". " ++ flat block], olCounter)
  else if bool_decide (ty = lit "code-block") then
    (parts ++ [lit "```" ++ [nl] ++ Text block ++ [nl] ++ lit "```"], 0)
  else if bool_decide (ty = lit "atomic") then
    let rendered := renderAtomicBlock block entityLookup mediaLookup in
    if negb (bool_decide (rendered = [])) then (parts ++ [rendered], 0)
    else (parts, 0)
  else
    if bool_decide (TrimSpace (Text block) = []) then (parts ++ [[]], 0)
    else (parts ++ [flat block], 0).

(** The loop over the blocks, started from a given state. *)
Definition renderBlocks (entityLookup : gmap Z EntityValue)
    (mediaLookup : gmap (list N) (list N))
    (blocks : list Block) (st : list gostring * Z) : list gostring * Z :=
  fold_left (blockStep entityLookup mediaLookup) blocks st.

(** [DraftJSToMarkdown]; a nil [content] is [None]. *)
Definition DraftJSToMarkdown (content : option ArticleContent)
    (mediaEntities : list ArticleMedia) : gostring :=
  match content with
  | None => []
  | Some c =>
      match Blocks c with
      | [] => []
      | blocks =>
          let mediaLookup := buildMediaLookup mediaEntities in
          let entityLookup := buildEntityLookup (EntityMap c) in
          let '(parts, _) := renderBlocks entityLookup mediaLookup blocks ([], 0) in
          TrimSpace (Join parts [nl; nl])
      end
  end.
End Blocks.

(** The number of ordered-list items at the end of a block sequence. *)
Definition isOrdered (b : Block) : bool :=
  bool_decide (Type_ b = lit "ordered-list-item").

Fixpoint leadingOrdered (bs : list Block) : nat :=
  match bs with
  | b :: bs' => if isOrdered b then S (leadingOrdered bs') else O
  | [] => O
  end.

Definition trailingOrdered (bs : list Block) : nat := leadingOrdered (rev bs).

Definition mkBlock (ty text : string) : Block :=
  {| Key := []; Text := lit text; Type_ := lit ty;
     InlineStyleRanges := []; EntityRanges := [] |}.

(** *** The entity scan as the specification words it *)

(** The entities the ranges resolve to, in range order. *)
Definition resolved (ers : list EntityRange) (entityLookup : gmap Z EntityValue)
  : list EntityValue :=
  omap (fun er => entityLookup !! ERKey er) ers.

(** What one entity renders as. *)
Definition renderEntity (entity : EntityValue) (mediaLookup : gmap (list N) (list N))
  : gostring :=
  if bool_decide (EType entity = lit "MEDIA") then renderMediaEntity entity mediaLookup
  else if bool_decide (EType entity = lit "DIVIDER") then lit "---"
  else [].

(** The specification's policy: the first range whose key resolves decides. *)
Definition firstResolvedPolicy (block : Block)
    (entityLookup : gmap Z EntityValue) (mediaLookup : gmap (list N) (list N))
  : gostring :=
  match head (resolved (EntityRanges block) entityLookup) with
  | Some entity => renderEntity entity mediaLookup
  | None => []
  end.

Definition renderable (entity : EntityValue) : Prop :=
  EType entity = lit "MEDIA" \/ EType entity = lit "DIVIDER".

#[export] Instance renderable_dec entity : Decision (renderable entity).
Proof. unfold renderable. apply _. Defined.

(** The policy of the code: the first range that resolves to a MEDIA or
    DIVIDER entity decides. *)
Definition firstRenderablePolicy (block : Block)
    (entityLookup : gmap Z EntityValue) (mediaLookup : gmap (list N) (list N))
  : gostring :=
  match head (filter renderable (resolved (EntityRanges block) entityLookup)) with
  | Some entity => renderEntity entity mediaLookup
  | None => []
  end.

(** *** The media lookup as the specification words it *)

(** The image URL an entry carries; none for a nil [MediaInfo]. *)
Definition imageURL (e : ArticleMedia) : gostring :=
  match MediaInfo_ e with
  | Some mi => OriginalImgURL mi
  | None => []
  end.

(** The last entry of the list bearing [id]. *)
Definition lastBearing (id : gostring) (entities : list ArticleMedia)
  : option ArticleMedia :=
  last (filter (fun e => MediaID e = id) entities).

(** An entry the loop of [buildMediaLookup] inserts. *)
Definition hasImage (e : ArticleMedia) : Prop :=
  match MediaInfo_ e with
  | Some mi => OriginalImgURL mi <> []
  | None => False
  end.

#[export] Instance hasImage_dec e : Decision (hasImage e).
Proof. unfold hasImage. destruct (MediaInfo_ e); apply _. Defined.

Definition lastImageBearing (id : gostring) (entities : list ArticleMedia)
  : option ArticleMedia :=
  last (filter (fun e => MediaID e = id /\ hasImage e) entities).

Definition mkMedia (id url : string) : ArticleMedia :=
  {| ID := []; MediaKey := []; MediaID := lit id;
     MediaInfo_ := Some {| TypeName := []; OriginalImgURL := lit url;
                           OriginalImgWidth := 0; OriginalImgHeight := 0 |} |}.

Definition mkEntity (ty : string) : EntityValue :=
  {| EType := lit ty; Mutability := [];
     Data := {| EntityKey := []; MediaItems := []; URL := [] |} |}.

Definition mkRange (k : Z) : EntityRange :=
  {| ERKey := k; EROffset := 0; ERLength := 1 |}.

(** ** Decoding an entity-map key

    [FlexInt.UnmarshalJSON] calls [json.Unmarshal] twice, into an [int] and
    into a [string], and [strconv.Atoi].  These library functions are
    modelled on the bytes of one JSON value; for a value that is neither
    [null], a number nor a string both calls of [json.Unmarshal] fail
    (by a syntax error or by a type error), which is all the caller
    observes. *)

(** The white space JSON allows around a value. *)
Definition isJSONSpace (c : N) : bool :=
  ((c =? 32) || (c =? 9) || (c =? 13) || (c =? 10))%N.

Fixpoint dropJSONSpace (s : gostring) : gostring :=
  match s with
  | c :: s' => if isJSONSpace c then dropJSONSpace s' else s
  | [] => []
  end.

Definition trimJSON (s : gostring) : gostring :=
  rev (dropJSONSpace (rev (dropJSONSpace s))).

Definition isDigit (c : N) : bool := ((48 <=? c) && (c <=? 57))%N.

(** The integer part of the JSON number grammar covering the whole token:
    an optional minus sign, then either the digit 0 alone or a digit from
    1 to 9 followed by any digits. *)
Definition jsonNaturalToken (t : gostring) : bool :=
  match t with
  | [] => false
  | d :: ds =>
      match ds with
      | [] => isDigit d
      | _ => ((49 <=? d) && (d <=? 57))%N && forallb isDigit ds
      end
  end.

Definition jsonIntegerToken (t : gostring) : bool :=
  match t with
  | c :: r => if (c =? 45)%N then jsonNaturalToken r else jsonNaturalToken t
  | [] => false
  end.

(** One decimal digit in front of a [Decimal.uint]. *)
Definition consDigit (c : N) (u : Decimal.uint) : option Decimal.uint :=
  (if c =? 48 then Some (Decimal.D0 u) else if c =? 49 then Some (Decimal.D1 u)
   else if c =? 50 then Some (Decimal.D2 u) else if c =? 51 then Some (Decimal.D3 u)
   else if c =? 52 then Some (Decimal.D4 u) else if c =? 53 then Some (Decimal.D5 u)
   else if c =? 54 then Some (Decimal.D6 u) else if c =? 55 then Some (Decimal.D7 u)
   else if c =? 56 then Some (Decimal.D8 u) else if c =? 57 then Some (Decimal.D9 u)
   else None)%N.

(** A run of decimal digits as a [Decimal.uint]. *)
Fixpoint digitsToUint (s : gostring) : option Decimal.uint :=
  match s with
  | [] => Some Decimal.Nil
  | c :: r =>
      match digitsToUint r with
      | None => None
      | Some u => consDigit c u
      end
  end.

(** [strconv.Atoi], which is [ParseInt(s, 10, 64)] here: an optional sign,
    at least one digit, nothing else, and a value that fits an [int]. *)
Definition Atoi (s : gostring) : option Z :=
  let '(neg, ds) :=
    match s with
    | c :: r => if (c =? 43)%N then (false, r)
                else if (c =? 45)%N then (true, r) else (false, s)
    | [] => (false, s)
    end in
  match ds with
  | [] => None
  | _ =>
      match digitsToUint ds with
      | None => None
      | Some u =>
          let z := if neg then - Z.of_uint u else Z.of_uint u in
          if (- 2 ^ 63 <=? z) && (z <? 2 ^ 63) then Some z else None
      end
  end.

Definition hexVal (c : N) : option N :=
  (if (48 <=? c) && (c <=? 57) then Some (c - 48)
   else if (97 <=? c) && (c <=? 102) then Some (c - 87)
   else if (65 <=? c) && (c <=? 70) then Some (c - 55)
   else None)%N.

(** The four hex digits of a [\u] escape. *)
Definition getu4 (h1 h2 h3 h4 : N) : option N :=
  match hexVal h1, hexVal h2, hexVal h3, hexVal h4 with
  | Some a, Some b, Some c, Some d => Some (((a * 16 + b) * 16 + c) * 16 + d)%N
  | _, _, _, _ => None
  end.

Definition isSurrogate (r : N) : bool := ((55296 <=? r) && (r <? 57344))%N.

(** [utf16.DecodeRune]: a high and a low surrogate make one code point. *)
Definition decodeSurrogates (r1 r2 : N) : option N :=
  (if (55296 <=? r1) && (r1 <? 56320) && (56320 <=? r2) && (r2 <? 57344)
   then Some ((r1 - 55296) * 1024 + (r2 - 56320) + 65536)
   else None)%N.

Definition replacementChar : N := 65533%N.

(** What a one-letter escape stands for. *)
Definition simpleEscape (c : N) : option N :=
  (if c =? 34 then Some 34 else if c =? 92 then Some 92
   else if c =? 47 then Some 47 else if c =? 98 then Some 8
   else if c =? 102 then Some 12 else if c =? 110 then Some 10
   else if c =? 114 then Some 13 else if c =? 116 then Some 9
   else None)%N.

(** The body of a JSON string literal after the opening quote, up to the
    closing quote that must end the token.  [None] is a syntax error. *)
Fixpoint unquoteBody (s : gostring) : option gostring :=
  match s with
  | [] => None
  | c :: rest =>
      if (c =? 34)%N then
        match rest with [] => Some [] | _ => None end
      else if (c =? 92)%N then
        match rest with
        | [] => None
        | e :: rest1 =>
            if (e =? 117)%N then
              match rest1 with
              | h1 :: h2 :: h3 :: h4 :: rest2 =>
                  match getu4 h1 h2 h3 h4 with
                  | None => None
                  | Some rr =>
                      if isSurrogate rr then
                        match rest2 with
                        | b :: u :: g1 :: g2 :: g3 :: g4 :: rest3 =>
                            if ((b =? 92) && (u =? 117))%N then
                              match getu4 g1 g2 g3 g4 with
                              | None => None
                              | Some rr1 =>
                                  match decodeSurrogates rr rr1 with
                                  | Some dec => cons dec <$> unquoteBody rest3
                                  | None => cons replacementChar <$> unquoteBody rest2
                                  end
                              end
                            else cons replacementChar <$> unquoteBody rest2
                        | _ => cons replacementChar <$> unquoteBody rest2
                        end
                      else cons rr <$> unquoteBody rest2
                  end
              | _ => None
              end
            else
              match simpleEscape e with
              | Some x => cons x <$> unquoteBody rest1
              | None => None
              end
        end
      else if (c <? 32)%N then None
      else cons c <$> unquoteBody rest
  end.

(** [json.Unmarshal(data, &intVal)]: [None] is an error, [Some v'] the value
    of [intVal] afterwards.  A JSON [null] is no error and has no effect. *)
Definition jsonUnmarshalInt (data : gostring) (intVal : Z) : option Z :=
  let t := trimJSON data in
  if bool_decide (t = lit "null") then Some intVal
  else if jsonIntegerToken t then Atoi t
  else None.

(** [json.Unmarshal(data, &strVal)]. *)
Definition jsonUnmarshalString (data : gostring) (strVal : gostring) : option gostring :=
  let t := trimJSON data in
  if bool_decide (t = lit "null") then Some strVal
  else match t with
       | c :: body => if (c =? 34)%N then unquoteBody body else None
       | [] => None
       end.

(** The two errors of [UnmarshalJSON], with what their messages quote. *)
Inductive flexIntError :=
| CannotParse (strVal : gostring)
| CannotUnmarshal (data : gostring).

(** [FlexInt.UnmarshalJSON]: [f] is the value of the receiver before the
    call; the result is the error (or nil) and the value after the call. *)
Definition UnmarshalJSON (f : Z) (data : gostring) : option flexIntError * Z :=
  match jsonUnmarshalInt data 0 with
  | Some intVal => (None, intVal)
  | None =>
      match jsonUnmarshalString data [] with
      | Some strVal =>
          match Atoi strVal with
          | Some n => (None, n)
          | None => (Some (CannotParse strVal), f)
          end
      | None => (Some (CannotUnmarshal data), f)
      end
  end.

(** The two accepted shapes in the specification's words: a valid integer
    and a numeric string. *)
Definition validInteger (data : gostring) : bool :=
  let t := trimJSON data in
  jsonIntegerToken t && bool_decide (is_Some (Atoi t)).

Definition numericString (data : gostring) : bool :=
  match trimJSON data with
  | c :: body =>
      (c =? 34)%N &&
      match unquoteBody body with
      | Some s => bool_decide (is_Some (Atoi s))
      | None => false
      end
  | [] => false
  end.

Definition quoted (s : gostring) : gostring := 34%N :: s ++ [34%N].

Definition isNull (data : gostring) : bool :=
  bool_decide (trimJSON data = lit "null").

(** A digit or a minus sign: the runes [itoa] writes. *)
Definition plainChar (c : N) : bool := isDigit c || (c =? 45)%N.

Definition nonzeroHead (u : Decimal.uint) : bool :=
  match u with
  | Decimal.Nil | Decimal.D0 _ => false
  | _ => true
  end.

(** ** Regular expressions

    The expressions of the HTML renderer use literals, one-rune classes,
    greedy and lazy repetition of a class, optional groups, alternation
    and capture groups; none has an anchor.  Go's [regexp] returns, among
    the leftmost matches, the one a backtracking search finds first, which
    is how [rmatch] searches. *)

Inductive regex :=
| REps
| RChar (p : N -> bool)
| RSeq (a b : regex)
| RAlt (a b : regex)
| RStar (greedy : bool) (p : N -> bool)
| ROpt (a : regex)
| RGroup (i : nat) (a : regex).

(** The text of the capture groups that took part in a match. *)
Abbreviation captures := (list (nat * list N)) (only parsing).

Definition group (cs : captures) (i : nat) : gostring :=
  match list_find (fun c => fst c = i) cs with
  | Some (_, (_, g)) => g
  | None => []
  end.

Definition orElse {A} (x y : option A) : option A :=
  match x with Some _ => x | None => y end.

(** [rmatch r s cs k]: match [r] at the start of [s] and hand the rest of
    the input to [k]; alternatives are tried in the order of preference. *)
Fixpoint rmatch (r : regex) (s : gostring) (cs : captures)
    (k : gostring -> captures -> option (gostring * captures))
  : option (gostring * captures) :=
  match r with
  | REps => k s cs
  | RChar p =>
      match s with
      | c :: s' => if p c then k s' cs else None
      | [] => None
      end
  | RSeq a b => rmatch a s cs (fun s' cs' => rmatch b s' cs' k)
  | RAlt a b => orElse (rmatch a s cs k) (rmatch b s cs k)
  | RStar greedy p =>
      (fix star (s : gostring) : option (gostring * captures) :=
         match s with
         | c :: s' =>
             if p c then
               if greedy then orElse (star s') (k s cs)
               else orElse (k s cs) (star s')
             else k s cs
         | [] => k [] cs
         end) s
  | ROpt a => orElse (rmatch a s cs k) (k s cs)
  | RGroup i a =>
      rmatch a s cs
        (fun s' cs' => k s' ((i, take (length s - length s') s) :: cs'))
  end.

(** The texts an expression matches, apart from any search order. *)
Inductive lang : regex -> gostring -> Prop :=
| lang_eps : lang REps []
| lang_char p c : p c = true -> lang (RChar p) [c]
| lang_seq a b x y : lang a x -> lang b y -> lang (RSeq a b) (x ++ y)
| lang_alt_l a b x : lang a x -> lang (RAlt a b) x
| lang_alt_r a b x : lang b x -> lang (RAlt a b) x
| lang_star_nil greedy p : lang (RStar greedy p) []
| lang_star_cons greedy p c x :
    p c = true -> lang (RStar greedy p) x -> lang (RStar greedy p) (c :: x)
| lang_opt_some a x : lang a x -> lang (ROpt a) x
| lang_opt_none a : lang (ROpt a) []
| lang_group i a x : lang a x -> lang (RGroup i a) x.

(** A match: the text before it, the matched text, the groups and the
    text after it. *)
Record found := {
  before : gostring;
  matched : gostring;
  groups : captures;
  after : gostring
}.

Definition matchHere (r : regex) (s : gostring) : option (gostring * captures) :=
  rmatch r s [] (fun s' cs => Some (s', cs)).

(** The leftmost match in [s]; [skipped] is the text already passed over,
    reversed. *)
Fixpoint findFrom (r : regex) (skipped : gostring) (s : gostring) : option found :=
  match matchHere r s with
  | Some (rest, cs) =>
      Some {| before := rev skipped;
              matched := take (length s - length rest) s;
              groups := cs; after := rest |}
  | None =>
      match s with
      | c :: s' => findFrom r (c :: skipped) s'
      | [] => None
      end
  end.

Definition find (r : regex) (s : gostring) : option found := findFrom r [] s.

(** [FindStringSubmatch(s)[i]]; group 0 is the whole match. *)
Definition submatch (m : found) (i : nat) : gostring :=
  match i with
  | O => matched m
  | _ => group (groups m) i
  end.

Definition isNil {A} (l : list A) : bool :=
  match l with [] => true | _ => false end.

(** The loop of [Regexp.replaceAll]: [rest] is the input from [searchPos],
    [gap] the input between [lastMatchEnd] and [searchPos], and [atStart]
    says that [searchPos] is 0. *)
Fixpoint replaceLoop (fuel : nat) (r : regex) (repl : found -> gostring)
    (atStart : bool) (gap rest : gostring) : gostring :=
  match fuel with
  | O => gap ++ rest
  | S fuel' =>
      match find r rest with
      | None => gap ++ rest
      | Some m =>
          let copied := gap ++ before m in
          let replaced :=
            if negb (isNil (gap ++ before m ++ matched m))
               || (atStart && isNil (before m))
            then copied ++ repl m else copied in
          match before m ++ matched m with
          | [] =>
              match rest with
              | [] => replaced
              | c :: rest' => replaced ++ replaceLoop fuel' r repl false [c] rest'
              end
          | _ => replaced ++ replaceLoop fuel' r repl false [] (after m)
          end
      end
  end.

Definition replaceAll (r : regex) (repl : found -> gostring) (s : gostring) : gostring :=
  replaceLoop (S (length s)) r repl true [] s.

(** [ReplaceAllStringFunc]: the function sees the matched text only. *)
Definition ReplaceAllStringFunc (r : regex) (s : gostring)
    (f : gostring -> gostring) : gostring :=
  replaceAll r (fun m => f (matched m)) s.

(** A replacement template: literal text and group references [$i]. *)
Inductive piece :=
| PText (t : gostring)
| PGroup (i : nat).

Definition expand (template : list piece) (m : found) : gostring :=
  flat_map (fun p => match p with PText t => t | PGroup i => submatch m i end) template.

(** [ReplaceAllString]. *)
Definition ReplaceAllString (r : regex) (s : gostring) (template : list piece)
  : gostring :=
  replaceAll r (expand template) s.

(** [FindStringSubmatch]; [None] is nil. *)
Definition FindStringSubmatch (r : regex) (s : gostring) : option found := find r s.

(** The loop of [Regexp.allMatches]: [rest] is the input from [pos] and
    [adjacent] says that [pos] is the end of the previous match. *)
Fixpoint allMatchesLoop (fuel : nat) (r : regex) (adjacent : bool) (rest : gostring)
  : list found :=
  match fuel with
  | O => []
  | S fuel' =>
      match find r rest with
      | None => []
      | Some m =>
          match before m ++ matched m with
          | [] =>
              let tail :=
                match rest with
                | [] => []
                | _ :: rest' => allMatchesLoop fuel' r false rest'
                end in
              if adjacent then tail else m :: tail
          | _ => m :: allMatchesLoop fuel' r true (after m)
          end
      end
  end.

(** [FindAllStringSubmatch(s, -1)]. *)
Definition FindAllStringSubmatch (r : regex) (s : gostring) : list found :=
  allMatchesLoop (S (length s)) r false s.

(** *** Building the expressions *)

Definition isRune (x : N) : N -> bool := fun c => (c =? x)%N.
Definition notRune (x : N) : N -> bool := fun c => negb (c =? x)%N.
Definition anyRune : N -> bool := fun _ => true.

(** [\s] is the ASCII white space. *)
Definition reSpace (c : N) : bool :=
  ((c =? 9) || (c =? 10) || (c =? 12) || (c =? 13) || (c =? 32))%N.

(** A literal rune under [(?i)]: the runes of its simple-folding orbit;
    beside the other case these are the Kelvin sign for [k] and the long s
    for [s]. *)
Definition equalFold (x : N) : N -> bool := fun c =>
  ((c =? x)
   || ((97 <=? x) && (x <=? 122) && (c =? x - 32))
   || ((65 <=? x) && (x <=? 90) && (c =? x + 32))
   || (((x =? 107) || (x =? 75)) && (c =? 8490))
   || (((x =? 115) || (x =? 83)) && (c =? 383)))%N.

Fixpoint rlit (fold : bool) (s : gostring) : regex :=
  match s with
  | [] => REps
  | c :: s' => RSeq (RChar (if fold then equalFold c else isRune c)) (rlit fold s')
  end.

Definition rseq (rs : list regex) : regex := fold_right RSeq REps rs.

Definition lt_ : N := 60%N.
Definition gt_ : N := 62%N.
Definition quote_ : N := 34%N.

(** The expression [(?is) <name [^>]* > ( .*? ) </name>], written here
    token by token. *)
Definition element (name : string) : regex :=
  rseq [rlit true (lt_ :: lit name); RStar true (notRune gt_); RChar (isRune gt_);
        RGroup 1 (RStar false anyRune);
        rlit true (lit "</" ++ lit name ++ [gt_])].

Definition preBlockRe : regex := element "pre".

(** [(?is) <code (?: \s+ class=Qlanguage- ( [^Q]* ) Q )? [^>]* > ( .*? ) </code>],
    where Q is the double quote. *)
Definition codeInPreRe : regex :=
  rseq [rlit true (lit "<code");
        ROpt (rseq [RChar reSpace; RStar true reSpace;
                    rlit true (lit "class=" ++ [quote_] ++ lit "language-");
                    RGroup 1 (RStar true (notRune quote_));
                    RChar (isRune quote_)]);
        RStar true (notRune gt_); RChar (isRune gt_);
        RGroup 2 (RStar false anyRune);
        rlit true (lit "</code>")].

Definition h1Re : regex := element "h1".
Definition h2Re : regex := element "h2".
Definition h3Re : regex := element "h3".
Definition h4Re : regex := element "h4".
Definition h5Re : regex := element "h5".
Definition h6Re : regex := element "h6".
Definition blockquoteRe : regex := element "blockquote".
Definition ulRe : regex := element "ul".
Definition olRe : regex := element "ol".
Definition liRe : regex := element "li".
Definition pRe : regex := element "p".

(** [(?i) <hr \s* /? >]. *)
Definition hrRe : regex :=
  rseq [rlit true (lit "<hr"); RStar true reSpace; ROpt (RChar (isRune 47%N));
        RChar (isRune gt_)].

(** [(?is) <a \s [^>]* href=Q ( [^Q]* ) Q [^>]* > ( .*? ) </a>]. *)
Definition linkRe : regex :=
  rseq [rlit true (lit "<a"); RChar reSpace; RStar true (notRune gt_);
        rlit true (lit "href=" ++ [quote_]);
        RGroup 1 (RStar true (notRune quote_)); RChar (isRune quote_);
        RStar true (notRune gt_); RChar (isRune gt_);
        RGroup 2 (RStar false anyRune);
        rlit true (lit "</a>")].

(** [(?i) <img \s [^>]* src=Q ( [^Q]* ) Q [^>]* (?: alt=Q ( [^Q]* ) Q )? [^>]* /? >]. *)
Definition imgRe : regex :=
  rseq [rlit true (lit "<img"); RChar reSpace; RStar true (notRune gt_);
        rlit true (lit "src=" ++ [quote_]);
        RGroup 1 (RStar true (notRune quote_)); RChar (isRune quote_);
        RStar true (notRune gt_);
        ROpt (rseq [rlit true (lit "alt=" ++ [quote_]);
                    RGroup 2 (RStar true (notRune quote_));
                    RChar (isRune quote_)]);
        RStar true (notRune gt_); ROpt (RChar (isRune 47%N)); RChar (isRune gt_)].

(** [(?is) < (?: a | b ) > ( .*? ) </ (?: a | b ) >]. *)
Definition eitherElement (a b : string) : regex :=
  rseq [RChar (isRune lt_); RAlt (rlit true (lit a)) (rlit true (lit b));
        RChar (isRune gt_);
        RGroup 1 (RStar false anyRune);
        rlit true (lit "</"); RAlt (rlit true (lit a)) (rlit true (lit b));
        RChar (isRune gt_)].

Definition boldRe : regex := eitherElement "strong" "b".
Definition italicRe : regex := eitherElement "em" "i".

(** [(?is) <code> ( .*? ) </code>]. *)
Definition inlineCodeRe : regex :=
  rseq [rlit true (lit "<code>"); RGroup 1 (RStar false anyRune);
        rlit true (lit "</code>")].

(** [(?i) <br \s* /? >]. *)
Definition brRe : regex :=
  rseq [rlit true (lit "<br"); RStar true reSpace; ROpt (RChar (isRune 47%N));
        RChar (isRune gt_)].

(** [< [^>]* >]. *)
Definition tagRe : regex :=
  rseq [RChar (isRune lt_); RStar true (notRune gt_); RChar (isRune gt_)].

(** [\n{3,}]. *)
Definition multiNewlineRe : regex :=
  rseq [RChar (isRune nl); RChar (isRune nl); RChar (isRune nl); RStar true (isRune nl)].

(** One or more blanks or tabs and a newline. *)
Definition blank (c : N) : bool := ((c =? 32) || (c =? 9))%N.
Definition trailingSpaceRe : regex :=
  rseq [RChar blank; RStar true blank; RChar (isRune nl)].

(** ** The HTML renderer *)

(** [strings.ReplaceAll(s, CR LF, LF)]. *)
Fixpoint replaceCRLF (s : gostring) : gostring :=
  match s with
  | [] => []
  | c :: s' =>
      if (c =? 13)%N then
        match s' with
        | d :: s'' => if (d =? 10)%N then nl :: replaceCRLF s'' else c :: replaceCRLF s'
        | [] => [c]
        end
      else c :: replaceCRLF s'
  end.

(** [strings.ReplaceAll(s, CR, LF)]. *)
Definition replaceCR (s : gostring) : gostring :=
  map (fun c => if (c =? 13)%N then nl else c) s.

(** [stripTags]. *)
Definition stripTags (s : gostring) : gostring := ReplaceAllString tagRe s [].

(** [re.FindStringSubmatch(m)[i]] where [m] is a match of [re] itself, so
    that the result is not nil. *)
Definition submatchOf (re : regex) (m : gostring) (i : nat) : gostring :=
  match FindStringSubmatch re m with
  | Some f => submatch f i
  | None => []
  end.

Section HTML.
(** [html.UnescapeString] returns its argument when it holds no ampersand;
    what it does otherwise depends on the entity table of the library and
    stays a parameter. *)
Variable decodeEntities : gostring -> gostring.

Definition UnescapeString (s : gostring) : gostring :=
  if existsb (N.eqb 38) s then decodeEntities s else s.

Definition processPreBlocks (s : gostring) : gostring :=
  ReplaceAllStringFunc preBlockRe s (fun match_ =>
    match FindStringSubmatch preBlockRe match_ with
    | None => match_
    | Some inner =>
        let content := submatch inner 1 in
        let '(lang, content) :=
          match FindStringSubmatch codeInPreRe content with
          | Some cm => (submatch cm 1, submatch cm 2)
          | None => ([], content)
          end in
        let content := UnescapeString content in
        let content := stripTags content in
        let content := TrimSpace content in
        [nl; nl] ++ lit "```" ++ lang ++ [nl] ++ content ++ [nl] ++ lit "```" ++ [nl; nl]
    end).

Definition processHeading (re : regex) (hashes : string) (s : gostring) : gostring :=
  ReplaceAllStringFunc re s (fun m =>
    let inner := stripTags (submatchOf re m 1) in
    [nl; nl] ++ lit hashes ++ TrimSpace inner ++ [nl; nl]).

Definition processHeadings (s : gostring) : gostring :=
  let s := processHeading h1Re "# " s in
  let s := processHeading h2Re "## " s in
  let s := processHeading h3Re "### " s in
  let s := processHeading h4Re "#### " s in
  let s := processHeading h5Re "##### " s in
  let s := processHeading h6Re "###### " s in
  s.

Definition processBlockquotes (s : gostring) : gostring :=
  ReplaceAllStringFunc blockquoteRe s (fun match_ =>
    let inner := submatchOf blockquoteRe match_ 1 in
    let inner := stripTags inner in
    let inner := TrimSpace inner in
    let lines := SplitRune inner nl in
    let quoted :=
      fold_left (fun quoted line => quoted ++ [lit "> " ++ TrimSpace line]) lines [] in
    [nl; nl] ++ Join quoted [nl] ++ [nl; nl]).

(** The items of a list, numbered from [i + 1] when [ordered]. *)
Fixpoint listLines (ordered : bool) (i : nat) (items : list found) : list gostring :=
  match items with
  | [] => []
  | item :: items' =>
      let text := TrimSpace (stripTags (submatch item 1)) in
      (if ordered then itoa (Z.of_nat (i + 1)) ++ lit ". " ++ text
       else lit "- " ++ text) :: listLines ordered (S i) items'
  end.

Definition processLists (s : gostring) : gostring :=
  let s := ReplaceAllStringFunc ulRe s (fun match_ =>
    let inner := submatchOf ulRe match_ 1 in
    let items := FindAllStringSubmatch liRe inner in
    [nl; nl] ++ Join (listLines false 0 items) [nl] ++ [nl; nl]) in
  let s := ReplaceAllStringFunc olRe s (fun match_ =>
    let inner := submatchOf olRe match_ 1 in
    let items := FindAllStringSubmatch liRe inner in
    [nl; nl] ++ Join (listLines true 0 items) [nl] ++ [nl; nl]) in
  s.

Definition processParagraphs (s : gostring) : gostring :=
  ReplaceAllString pRe s [PText [nl; nl]; PGroup 1; PText [nl; nl]].

Definition processHorizontalRules (s : gostring) : gostring :=
  ReplaceAllString hrRe s [PText ([nl; nl] ++ lit "---" ++ [nl; nl])].

Definition processLinks (s : gostring) : gostring :=
  ReplaceAllStringFunc linkRe s (fun match_ =>
    let href := submatchOf linkRe match_ 1 in
    let text := TrimSpace (stripTags (submatchOf linkRe match_ 2)) in
    let text := if isNil text then href else text in
    lit "[" ++ text ++ lit "](" ++ href ++ lit ")").

Definition processImages (s : gostring) : gostring :=
  ReplaceAllStringFunc imgRe s (fun match_ =>
    let src := submatchOf imgRe match_ 1 in
    let alt := submatchOf imgRe match_ 2 in
    lit "![" ++ alt ++ lit "](" ++ src ++ lit ")").

Definition processBold (s : gostring) : gostring :=
  ReplaceAllString boldRe s [PText (lit "**"); PGroup 1; PText (lit "**")].

Definition processItalic (s : gostring) : gostring :=
  ReplaceAllString italicRe s [PText (lit "*"); PGroup 1; PText (lit "*")].

Definition processInlineCode (s : gostring) : gostring :=
  ReplaceAllString inlineCodeRe s [PText (lit "`"); PGroup 1; PText (lit "`")].

Definition processLineBreaks (s : gostring) : gostring :=
  ReplaceAllString brRe s [PText [nl]].

Definition cleanWhitespace (s : gostring) : gostring :=
  let s := ReplaceAllString trailingSpaceRe s [PText [nl]] in
  let s := ReplaceAllString multiNewlineRe s [PText [nl; nl]] in
  s.

(** [HTMLToMarkdown]. *)
Definition HTMLToMarkdown (htmlStr : gostring) : gostring :=
  let s := htmlStr in
  let s := replaceCRLF s in
  let s := replaceCR s in
  let s := processPreBlocks s in
  let s := processHeadings s in
  let s := processBlockquotes s in
  let s := processLists s in
  let s := processParagraphs s in
  let s := processHorizontalRules s in
  let s := processLinks s in
  let s := processImages s in
  let s := processBold s in
  let s := processItalic s in
  let s := processInlineCode s in
  let s := processLineBreaks s in
  let s := stripTags s in
  let s := UnescapeString s in
  let s := cleanWhitespace s in
  TrimSpace s.
End HTML.

(** ** Threads *)

(** The author of a tweet. *)
Record Author := {
  AuthorID : gostring;
  AuthorName : gostring;
  ScreenName : gostring;
  AvatarURL : gostring;
  Followers : Z;
  Following : Z
}.

(** A tweet, with the fields the thread traversal, the quote writer and
    the front matter read; the pointers to media, poll, quoted tweet and
    article are left out. *)
Record Tweet := {
  TweetID : gostring;
  TweetURL : gostring;
  TweetText : gostring;
  CreatedAt : gostring;
  CreatedTimestamp : Z;
  Likes : Z;
  Retweets : Z;
  Replies : Z;
  Views : Z;
  Bookmarks : Z;
  Lang : gostring;
  Source : gostring;
  TweetAuthor : option Author;
  ReplyingTo : gostring;
  ReplyingToStatus : gostring;
  ConversationID : gostring
}.

Definition maxThreadDepth : nat := 50.

Section Reverse.
Context {A : Type}.

(** The loop of [reverse]: [i] and [j] are the two indices, [l] the slice;
    an iteration swaps [l[i]] and [l[j]].  The fuel is the number of
    iterations still allowed. *)
Fixpoint reverseLoop (fuel : nat) (l : list A) (i j : Z) : list A :=
  match fuel with
  | O => l
  | S fuel' =>
      if i <? j then
        match l !! Z.to_nat i, l !! Z.to_nat j with
        | Some x, Some y =>
            reverseLoop fuel' (<[Z.to_nat j := x]> (<[Z.to_nat i := y]> l))
              (i + 1) (j - 1)
        | _, _ => l
        end
      else l
  end.

(** [reverse]: the slice after the call. *)
Definition reverse (tweets : list A) : list A :=
  reverseLoop (length tweets) tweets 0 (Z.of_nat (length tweets) - 1).
End Reverse.

(** The error [FetchThread] returns: the id it could not fetch and the
    error of the fetch. *)
Inductive threadError (E : Type) :=
| FailedToFetch (id : gostring) (cause : E).
Arguments FailedToFetch {E} id cause.

Section Thread.
(** The network is a state the fetches thread through; [FetchTweet] is
    the HTTP call and [EqualFold] is [strings.EqualFold]. *)
Context {World E : Type}.
Variable FetchTweet : gostring -> gostring -> World -> (E + Tweet) * World.
Variable EqualFold : gostring -> gostring -> bool.

(** The tweet answers another author: the traversal stops. *)
Definition repliesToOther (tweet : Tweet) : bool :=
  negb (isNil (ReplyingTo tweet)) &&
  match TweetAuthor tweet with
  | Some author => negb (EqualFold (ReplyingTo tweet) (ScreenName author))
  | None => false
  end.

(** The loop of [FetchThread] with [n] iterations left: the chain so far,
    the current screen name and id, and the network.  The result is the
    early error return or the chain at the end of the loop. *)
Fixpoint threadLoop (n : nat) (chain : list Tweet)
    (currentScreenName currentID : gostring) (w : World)
  : (threadError E + list Tweet) * World :=
  match n with
  | O => (inr chain, w)
  | S n' =>
      let '(r, w) := FetchTweet currentScreenName currentID w in
      match r with
      | inl err =>
          if isNil chain then (inl (FailedToFetch currentID err), w)
          else (inr chain, w)
      | inr tweet =>
          let chain := chain ++ [tweet] in
          if isNil (ReplyingToStatus tweet) then (inr chain, w)
          else if repliesToOther tweet then (inr chain, w)
          else
            let currentID := ReplyingToStatus tweet in
            let currentScreenName :=
              match TweetAuthor tweet with
              | Some author => ScreenName author
              | None => currentScreenName
              end in
            threadLoop n' chain currentScreenName currentID w
      end
  end.

(** [FetchThread]. *)
Definition FetchThread (screenName id : gostring) (w : World)
  : (threadError E + list Tweet) * World :=
  match threadLoop maxThreadDepth [] screenName id w with
  | (inl err, w) => (inl err, w)
  | (inr chain, w) => (inr (reverse chain), w)
  end.

(** A tweet the traversal went on from: it answers a status of its own
    author. *)
Definition followed (tweet : Tweet) : Prop :=
  ReplyingToStatus tweet <> [] /\ repliesToOther tweet = false.

(** The screen name the next fetch uses. *)
Definition nextScreenName (currentScreenName : gostring) (tweet : Tweet) : gostring :=
  match TweetAuthor tweet with
  | Some author => ScreenName author
  | None => currentScreenName
  end.

(** [ascent sn id w tweets]: [tweets] is a traversal from the tweet [id]
    upwards, newest first.  Its first tweet is what the fetch of [id]
    returns in the network state [w]; every further tweet is what the fetch
    of the [ReplyingToStatus] of the tweet before it returns, in the state
    the earlier fetches have left, and the tweet before it is one the
    traversal goes on from. *)
Inductive ascent : gostring -> gostring -> World -> list Tweet -> Prop :=
| ascent_last sn id w tweet w' :
    FetchTweet sn id w = (inr tweet, w') -> ascent sn id w [tweet]
| ascent_step sn id w tweet w' parents :
    FetchTweet sn id w = (inr tweet, w') ->
    followed tweet ->
    ascent (nextScreenName sn tweet) (ReplyingToStatus tweet) w' parents ->
    ascent sn id w (tweet :: parents).
End Thread.

(** ** URLs *)

Inductive URLType := URLTypeTweet | URLTypeArticle.

Record URLInfo := {
  UType : URLType;
  UScreenName : gostring;
  UID : gostring;
  OriginalURL : gostring
}.

Definition slash_ : N := 47%N.

(** The host part shared by the two patterns:
    [(?:https?://)? (?:www\.)? (?:x\.com|twitter\.com|fxtwitter\.com|fixupx\.com)]. *)
Definition hostRe : regex :=
  rseq [ROpt (rseq [rlit false (lit "http"); ROpt (RChar (isRune 115%N));
                    rlit false (lit "://")]);
        ROpt (rlit false (lit "www."));
        RAlt (rlit false (lit "x.com"))
          (RAlt (rlit false (lit "twitter.com"))
             (RAlt (rlit false (lit "fxtwitter.com")) (rlit false (lit "fixupx.com"))))].

(** [host / ( [^/]+ ) /kind/ ( \d+ )]. *)
Definition urlPattern (kind : string) : regex :=
  rseq [hostRe; RChar (isRune slash_);
        RGroup 1 (RSeq (RChar (notRune slash_)) (RStar true (notRune slash_)));
        rlit false (slash_ :: lit kind ++ [slash_]);
        RGroup 2 (RSeq (RChar isDigit) (RStar true isDigit))].

Definition tweetURLPattern : regex := urlPattern "status".
Definition articleURLPattern : regex := urlPattern "article".

(** [normalizeOriginalURL]. *)
Definition normalizeOriginalURL (screenName pathType id : gostring) : gostring :=
  lit "https://x.com/" ++ screenName ++ [slash_] ++ pathType ++ [slash_] ++ id.

(** [ParseURL]; the error carries the trimmed URL. *)
Definition ParseURL (rawURL : gostring) : gostring + URLInfo :=
  let rawURL := TrimSpace rawURL in
  match FindStringSubmatch articleURLPattern rawURL with
  | Some m =>
      inr {| UType := URLTypeArticle; UScreenName := submatch m 1; UID := submatch m 2;
             OriginalURL := normalizeOriginalURL (submatch m 1) (lit "article") (submatch m 2) |}
  | None =>
      match FindStringSubmatch tweetURLPattern rawURL with
      | Some m =>
          inr {| UType := URLTypeTweet; UScreenName := submatch m 1; UID := submatch m 2;
                 OriginalURL := normalizeOriginalURL (submatch m 1) (lit "status") (submatch m 2) |}
      | None => inl rawURL
      end
  end.

(** A small network for examples: tweet 2 answers tweet 1 of the same
    author, tweet 1 answers nothing, and no other id can be fetched. *)
Definition mkTweet (id author replyingTo replyingToStatus : string) : Tweet :=
  {| TweetID := lit id; TweetURL := []; TweetText := []; CreatedAt := [];
     CreatedTimestamp := 0; Likes := 0; Retweets := 0; Replies := 0; Views := 0;
     Bookmarks := 0; Lang := []; Source := [];
     TweetAuthor := Some {| AuthorID := []; AuthorName := []; ScreenName := lit author;
                            AvatarURL := []; Followers := 0; Following := 0 |};
     ReplyingTo := lit replyingTo; ReplyingToStatus := lit replyingToStatus;
     ConversationID := [] |}.

Definition sampleNetwork (screenName id : gostring) (w : unit) : (unit + Tweet) * unit :=
  if bool_decide (id = lit "2") then (inr (mkTweet "2" "joe" "joe" "1"), w)
  else if bool_decide (id = lit "1") then (inr (mkTweet "1" "joe" "" ""), w)
  else (inl tt, w).

Definition sameName (a b : gostring) : bool := bool_decide (a = b).

(** An expression without capture groups. *)
Fixpoint noGroups (r : regex) : bool :=
  match r with
  | REps | RChar _ | RStar _ _ => true
  | RSeq a b | RAlt a b => noGroups a && noGroups b
  | ROpt a => noGroups a
  | RGroup _ _ => false
  end.

(** A screen name and an id as the URL patterns capture them. *)
Definition validScreenName (name : gostring) : Prop :=
  name <> [] /\ Forall (fun c => c <> slash_) name.

Definition validID (id : gostring) : Prop :=
  id <> [] /\ Forall (fun c => isDigit c = true) id.

(** The path word of a URL type. *)
Definition pathWord (t : URLType) : string :=
  match t with
  | URLTypeTweet => "status"
  | URLTypeArticle => "article"
  end.

(** Some rune [e], a slash and a digit in a row. *)
Fixpoint hasESlashDigit (s : gostring) : bool :=
  match s with
  | [] => false
  | c1 :: s1 =>
      (if (c1 =? 101)%N then
         match s1 with
         | c2 :: s2 =>
             if (c2 =? 47)%N then
               match s2 with
               | c3 :: _ => isDigit c3
               | [] => false
               end
             else false
         | [] => false
         end
       else false) || hasESlashDigit s1
  end.

(** ** Expressions that start with a rune of a class *)

(** The class every text of the expression starts with, where the shape
    of the expression shows one. *)
Fixpoint firstClass (r : regex) : option (N -> bool) :=
  match r with
  | RChar p => Some p
  | RSeq a _ => firstClass a
  | RGroup _ a => firstClass a
  | REps | RAlt _ _ | RStar _ _ | ROpt _ => None
  end.

(** Every text of the expression starts with the rune [x]. *)
Definition startsWith (x : N) (r : regex) : Prop :=
  exists p, firstClass r = Some p /\ forall c, p c = true -> c = x.

(** No white space at either end. *)
Definition trimmed (s : gostring) : Prop :=
  (forall c, head s = Some c -> isSpace c = false) /\
  (forall c, last s = Some c -> isSpace c = false).

(** ** Front matter *)

Definition backslash_ : N := 92%N.

(** [strings.ContainsAny]. *)
Definition ContainsAny (s chars : gostring) : bool :=
  existsb (fun c => existsb (N.eqb c) chars) s.

(** [strings.ReplaceAll] for a one-rune [old]. *)
Definition ReplaceAllRune (s : gostring) (old : N) (new : gostring) : gostring :=
  flat_map (fun c => if (c =? old)%N then new else [c]) s.

(** The runes that make [yamlEscape] quote: the punctuation, the
    backslash, the two quotes and the newline. *)
Definition yamlSpecial : gostring :=
  lit ":#{}[]|>&*!,?" ++ [backslash_; quote_; 39%N; nl].

(** [yamlEscape]. *)
Definition yamlEscape (s : gostring) : gostring :=
  if isNil s then [quote_; quote_]
  else if ContainsAny s yamlSpecial then
    let escaped := ReplaceAllRune s backslash_ [backslash_; backslash_] in
    let escaped := ReplaceAllRune escaped quote_ [backslash_; quote_] in
    [quote_] ++ escaped ++ [quote_]
  else s.

(** What the two replacements of [yamlEscape] make of one rune. *)
Definition escapedRune (c : N) : gostring :=
  if (c =? backslash_)%N then [backslash_; backslash_]
  else if (c =? quote_)%N then [backslash_; quote_]
  else [c].

(** * Properties *)

(** ** Integers *)

Lemma int_wrap_small z : int_range z -> int_wrap z = z.
Proof.
  unfold int_range, int_wrap. intros Hz.
  rewrite Z.mod_small by lia. lia.
Qed.

(** ** The comparison of events *)

Lemma eventLess_spec a b :
  eventLess a b = true <->
  pos a < pos b \/ (pos a = pos b /\ start a = false /\ start b = true).
Proof.
  unfold eventLess.
  destruct (Z.eqb_spec (pos a) (pos b)) as [E|E]; simpl.
  - destruct (start a), (start b); simpl; split; intros; try discriminate;
      try lia; try (right; auto); destruct H as [?|(?&?&?)]; try lia; discriminate.
  - rewrite Z.ltb_lt. split; [auto|]. intros [?|(?&_)]; [done|lia].
Qed.

Lemma eventLess_false a b :
  eventLess b a = false ->
  pos a <= pos b /\ (pos a = pos b -> start a = true -> start b = true).
Proof.
  intros Hf. split.
  - destruct (Z.le_gt_cases (pos a) (pos b)) as [?|Hlt]; [done|].
    assert (eventLess b a = true) by (apply eventLess_spec; lia). congruence.
  - intros Hp Ha. destruct (start b) eqn:Hb; [done|].
    assert (eventLess b a = true) by (apply eventLess_spec; right; auto).
    congruence.
Qed.

Lemma eventLess_asym a b : eventLess a b = true -> eventLess b a = false.
Proof.
  rewrite eventLess_spec. intros Hab.
  destruct (eventLess b a) eqn:Hba; [|done].
  apply eventLess_spec in Hba. destruct Hab as [?|(?&?&?)], Hba as [?|(?&?&?)];
    try lia; congruence.
Qed.

Lemma eventLess_negtrans a b c :
  eventLess a b = false -> eventLess b c = false -> eventLess a c = false.
Proof.
  intros Hab Hbc. destruct (eventLess a c) eqn:Hac; [|done].
  apply eventLess_spec in Hac.
  apply eventLess_false in Hab, Hbc.
  destruct Hab as [H1 H2], Hbc as [H3 H4].
  destruct Hac as [?|(Hp&Ha&Hc)]; [lia|].
  assert (pos c = pos b) by lia. assert (pos b = pos a) by lia.
  specialize (H4 ltac:(done) Hc). specialize (H2 ltac:(done) H4). congruence.
Qed.

(** ** The insertion sort meets the contract of [sort.Slice] *)

Lemma sink_perm x r : sink x r ≡ₚ x :: r.
Proof.
  induction r as [|y r IH]; simpl; [done|].
  destruct (eventLess x y); [|done].
  rewrite IH. apply Permutation_swap.
Qed.

Lemma sink_sorted x r :
  StronglySorted (fun a b => eventLess a b = false) r ->
  StronglySorted (fun a b => eventLess a b = false) (sink x r).
Proof.
  induction 1 as [|y r Hr IH Hy]; simpl.
  - repeat constructor.
  - destruct (eventLess x y) eqn:Hxy.
    + constructor; [done|].
      rewrite (sink_perm x r). constructor; [|done].
      by apply eventLess_asym.
    + constructor; [by constructor|].
      constructor; [done|].
      eapply Forall_impl; [exact Hy|]. intros c Hc. simpl in Hc.
      by eapply eventLess_negtrans.
Qed.

Lemma insertion_fold_perm l acc :
  fold_left (fun acc x => sink x acc) l acc ≡ₚ l ++ acc.
Proof.
  revert acc. induction l as [|x l IH]; intros acc; simpl; [done|].
  rewrite IH, sink_perm. by rewrite Permutation_middle.
Qed.

Lemma insertion_fold_sorted l acc :
  StronglySorted (fun a b => eventLess a b = false) acc ->
  StronglySorted (fun a b => eventLess a b = false)
    (fold_left (fun acc x => sink x acc) l acc).
Proof.
  revert acc. induction l as [|x l IH]; intros acc Hacc; simpl; [done|].
  by apply IH, sink_sorted.
Qed.

Lemma StronglySorted_rev_flip {A} (R : relation A) (l : list A) :
  StronglySorted R l -> StronglySorted (fun a b => R b a) (rev l).
Proof.
  induction 1 as [|x l Hl IH Hx]; simpl; [constructor|].
  apply StronglySorted_app_2; [|done|repeat constructor].
  intros a b Ha Hb. apply list_elem_of_singleton in Hb as ->.
  rewrite Forall_forall in Hx. apply Hx.
  apply list_elem_of_In. apply in_rev. by apply list_elem_of_In.
Qed.

Lemma StronglySorted_weaken {A} (R S : relation A) (l : list A) :
  (forall a b, R a b -> S a b) -> StronglySorted R l -> StronglySorted S l.
Proof.
  intros HRS. induction 1 as [|x l Hl IH Hx]; constructor; [done|].
  eapply Forall_impl; [exact Hx|]. auto.
Qed.

Lemma strict_sorted_keys l x y :
  StronglySorted (fun a b => eventLess a b = true) l ->
  x ∈ l -> y ∈ l ->
  eventLess x y = false -> eventLess y x = false -> x = y.
Proof.
  induction 1 as [|a l Hl IH Ha]; intros Hx Hy Hxy Hyx.
  - by apply elem_of_nil in Hx.
  - rewrite Forall_forall in Ha.
    apply elem_of_cons in Hx as [->|Hx], Hy as [->|Hy]; [done| | |by apply IH].
    + specialize (Ha _ Hy). congruence.
    + specialize (Ha _ Hx). congruence.
Qed.

Lemma insertionSort_perm l : insertionSort l ≡ₚ l.
Proof.
  unfold insertionSort. rewrite <- Permutation_rev, insertion_fold_perm.
  by rewrite app_nil_r.
Qed.

Lemma insertionSort_sorted l :
  StronglySorted (fun a b => eventLess b a = false) (insertionSort l).
Proof.
  unfold insertionSort.
  apply (StronglySorted_rev_flip (fun a b => eventLess a b = false)).
  apply insertion_fold_sorted. constructor.
Qed.

#[export] Instance insertionSorter : SliceSorter := {|
  sortSlice := insertionSort;
  sortSlice_perm := insertionSort_perm;
  sortSlice_sorted := insertionSort_sorted
|}.

(** ** The sweep *)

Lemma inserted_app ms1 o1 t1 ms2 o2 t2 :
  inserted ms1 o1 t1 -> inserted ms2 o2 t2 ->
  inserted (ms1 ++ ms2) (o1 ++ o2) (t1 ++ t2).
Proof.
  induction 1 as [|c ms out text _ IH|m ms out text _ IH]; intros H2; simpl.
  - done.
  - constructor. by apply IH.
  - rewrite <- app_assoc. constructor. by apply IH.
Qed.

Lemma inserted_text t : inserted [] t t.
Proof. induction t; by constructor. Qed.

Lemma emitAt_spec p evs :
  exists es,
    evs = es ++ snd (emitAt p evs) /\
    fst (emitAt p evs) = flat_map markerOf es /\
    Forall (fun e => pos e = p) es /\
    (forall e rest, snd (emitAt p evs) = e :: rest -> pos e <> p).
Proof.
  induction evs as [|e evs (es & Hsplit & Hw & Hall & Hhd)]; simpl.
  - exists []. repeat split; try done; constructor.
  - destruct (Z.eqb_spec (pos e) p) as [E|E].
    + destruct (emitAt p evs) as [w rest] eqn:Hemit. simpl in *.
      exists (e :: es). repeat split.
      * by rewrite Hsplit at 1.
      * unfold markerOf at 1. by rewrite Hw.
      * by constructor.
      * exact Hhd.
    + exists []. simpl. repeat split; try done; try constructor.
      intros e' rest [= <- <-]. exact E.
Qed.

Lemma flat_map_markers_inserted es :
  inserted (map markerOf es) (flat_map markerOf es) [].
Proof. induction es; simpl; by constructor. Qed.

(** Whatever the events are, the sweep writes every rune of the text, in
    order, and between them the markers of a prefix of the events. *)
Lemma sweep_inserted runes : forall p evs,
  exists es,
    evs = es ++ snd (sweep p runes evs) /\
    inserted (map markerOf es) (fst (sweep p runes evs)) runes.
Proof.
  induction runes as [|r rs IH]; intros p evs; simpl;
    destruct (emitAt_spec p evs) as (es1 & Hsplit & Hw & _ & _);
    destruct (emitAt p evs) as [w evs'] eqn:Hemit; simpl in *.
  - exists es1. split; [done|]. rewrite Hw. apply flat_map_markers_inserted.
  - destruct (IH (p + 1) evs') as (es2 & Hsplit2 & Hins).
    destruct (sweep (p + 1) rs evs') as [out fin]; simpl in *.
    exists (es1 ++ es2). split.
    + rewrite <- app_assoc. by rewrite <- Hsplit2.
    + rewrite map_app. rewrite Hw.
      apply (inserted_app _ _ [] _ _ (r :: rs)).
      * apply flat_map_markers_inserted.
      * by constructor.
Qed.

Lemma markersAt_app p es1 es2 :
  markersAt p (es1 ++ es2) = markersAt p es1 ++ markersAt p es2.
Proof. unfold markersAt. by rewrite filter_app, flat_map_app. Qed.

Lemma markersAt_all p es :
  Forall (fun e => pos e = p) es -> markersAt p es = flat_map markerOf es.
Proof.
  unfold markersAt. induction 1 as [|e es He _ IH]; [done|].
  rewrite filter_cons_True by done. simpl. by rewrite IH.
Qed.

Lemma markersAt_none p es :
  Forall (fun e => pos e <> p) es -> markersAt p es = [].
Proof.
  unfold markersAt. induction 1 as [|e es He _ IH]; [done|].
  by rewrite filter_cons_False.
Qed.

Lemma weave_skip runes : forall p es1 es2,
  Forall (fun e => pos e < p) es1 ->
  weave p runes (es1 ++ es2) = weave p runes es2.
Proof.
  induction runes as [|r rs IH]; intros p es1 es2 Hlt; simpl;
    rewrite markersAt_app, (markersAt_none p es1);
    try (eapply Forall_impl; [exact Hlt|]; simpl; intros; lia); [done|].
  simpl. f_equal. f_equal. apply IH.
  eapply Forall_impl; [exact Hlt|]. simpl; intros; lia.
Qed.

Lemma weave_later runes : forall p es,
  Forall (fun e => p + Z.of_nat (length runes) < pos e) es ->
  weave p runes es = runes.
Proof.
  induction runes as [|r rs IH]; intros p es Hgt; simpl.
  - rewrite markersAt_none; [done|].
    eapply Forall_impl; [exact Hgt|]. simpl; intros; lia.
  - rewrite markersAt_none.
    2:{ eapply Forall_impl; [exact Hgt|]. simpl; intros; lia. }
    simpl. f_equal. apply IH.
    eapply Forall_impl; [exact Hgt|]. simpl; intros; lia.
Qed.

(** The events the sweep consumes are in range and each marker lands in
    front of the rune at its event's position. *)
Lemma sweep_weave runes : forall p evs,
  exists es,
    evs = es ++ snd (sweep p runes evs) /\
    Forall (fun e => p <= pos e <= p + Z.of_nat (length runes)) es /\
    fst (sweep p runes evs) = weave p runes es.
Proof.
  induction runes as [|r rs IH]; intros p evs; simpl;
    destruct (emitAt_spec p evs) as (es1 & Hsplit & Hw & Hall & _);
    destruct (emitAt p evs) as [w evs'] eqn:Hemit; simpl in *.
  - exists es1. split; [done|]. split.
    + eapply Forall_impl; [exact Hall|]. simpl; intros; lia.
    + rewrite app_nil_r. by rewrite markersAt_all.
  - destruct (IH (p + 1) evs') as (es2 & Hsplit2 & Hrange & Hout).
    destruct (sweep (p + 1) rs evs') as [out fin]; simpl in *.
    exists (es1 ++ es2). split; [|split].
    + rewrite <- app_assoc. by rewrite <- Hsplit2.
    + apply Forall_app. split.
      * eapply Forall_impl; [exact Hall|]. simpl; intros; lia.
      * eapply Forall_impl; [exact Hrange|]. simpl; intros; lia.
    + rewrite markersAt_app, (markersAt_all p es1), (markersAt_none p es2), app_nil_r;
        [|eapply Forall_impl; [exact Hrange|]; simpl; intros; lia|done].
      rewrite Hw, Hout. f_equal. f_equal.
      symmetry. apply weave_skip.
      eapply Forall_impl; [exact Hall|]. simpl; intros; lia.
Qed.

(** When every event lies in [[p, p+n]] and the events are sorted, the
    sweep consumes all of them. *)
Lemma sweep_complete runes : forall p evs,
  StronglySorted (fun a b => eventLess b a = false) evs ->
  Forall (fun e => p <= pos e <= p + Z.of_nat (length runes)) evs ->
  snd (sweep p runes evs) = [].
Proof.
  induction runes as [|r rs IH]; intros p evs Hsorted Hrange; simpl;
    destruct (emitAt_spec p evs) as (es1 & Hsplit & _ & _ & Hhd);
    destruct (emitAt p evs) as [w evs'] eqn:Hemit; simpl in *.
  - destruct evs' as [|e rest]; [done|exfalso].
    apply (Hhd e rest); [done|].
    rewrite Hsplit in Hrange. apply Forall_app in Hrange as [_ Hr].
    inversion Hr; subst. lia.
  - specialize (IH (p + 1) evs').
    destruct (sweep (p + 1) rs evs') as [out fin]; simpl in *.
    rewrite Hsplit in Hsorted, Hrange.
    apply StronglySorted_app_1_r in Hsorted.
    apply Forall_app in Hrange as [_ Hr].
    apply IH; [done|].
    destruct Hsorted as [|e rest Hs He]; [constructor|].
    assert (p + 1 <= pos e).
    { inversion Hr; subst. specialize (Hhd e rest eq_refl). lia. }
    constructor.
    + inversion Hr; subst. lia.
    + rewrite Forall_forall in He |- *. rewrite Forall_forall in Hr.
      intros x Hx. specialize (He x Hx). apply eventLess_false in He.
      specialize (Hr x ltac:(by right)). lia.
Qed.

Lemma sweep_stuck runes : forall p e evs,
  pos e < p -> sweep p runes (e :: evs) = (runes, e :: evs).
Proof.
  induction runes as [|r rs IH]; intros p e evs Hlt; simpl;
    destruct (Z.eqb_spec (pos e) p); try lia; [done|].
  rewrite IH by lia. done.
Qed.

Lemma closeFirst_split p es :
  StronglySorted closeFirst es ->
  filter (fun e => pos e = p) es = closesAt p es ++ opensAt p es.
Proof.
  unfold closesAt, opensAt.
  induction 1 as [|e es Hs IH He]; [done|].
  destruct (decide (pos e = p)) as [Hp|Hp].
  2:{ rewrite !filter_cons_False by tauto. exact IH. }
  destruct (start e) eqn:Hst.
  - rewrite (filter_cons_True (fun e => pos e = p)) by done.
    rewrite (filter_cons_False (fun e => pos e = p /\ start e = false))
      by (rewrite Hst; intros [_ ?]; done).
    rewrite (filter_cons_True (fun e => pos e = p /\ start e = true)) by done.
    assert (Hno : filter (fun e => pos e = p /\ start e = false) es = []).
    { clear IH Hs. induction He as [|x es Hx _ IHe]; [done|].
      rewrite filter_cons_False; [done|].
      intros [Hxp Hxs]. destruct Hx as [_ Hx].
      rewrite Hx in Hxs by congruence. done. }
    rewrite Hno in IH |- *. simpl in *. by rewrite IH.
  - rewrite (filter_cons_True (fun e => pos e = p)) by done.
    rewrite (filter_cons_True (fun e => pos e = p /\ start e = false)) by done.
    rewrite (filter_cons_False (fun e => pos e = p /\ start e = true))
      by (rewrite Hst; intros [_ ?]; done).
    simpl. by rewrite IH.
Qed.

Lemma collectEvents_in_range n styles :
  n < 2 ^ 63 ->
  Forall (wellFormed n) styles ->
  Forall (fun s => 0 <= Length s) styles ->
  Forall (fun e => 0 <= pos e <= n) (collectEvents n styles).
Proof.
  intros Hn Hwf Hlen. unfold collectEvents.
  induction styles as [|s styles IH]; simpl; [constructor|].
  inversion Hwf as [|? ? [Ho He] Hwf']; subst.
  inversion Hlen as [|? ? Hl Hlen']; subst.
  constructor; [simpl; lia|]. constructor; [|by apply IH].
  simpl. unfold int_add. rewrite int_wrap_small by (unfold int_range; lia).
  destruct (Z.ltb_spec n (Offset s + Length s)); lia.
Qed.

Section Flattening.
Context `{SliceSorter}.

Lemma sortSlice_nil : sortSlice [] = [].
Proof. apply Permutation_nil_r. apply sortSlice_perm. Qed.

(** A slice that has a strictly increasing arrangement sorts to it. *)
Lemma sortSlice_insertion l :
  StronglySorted (fun a b => eventLess a b = true) (insertionSort l) ->
  sortSlice l = insertionSort l.
Proof.
  intros Hl.
  apply (StronglySorted_unique_strong (fun a b => eventLess b a = false)).
  - intros x1 x2 Hx1 Hx2 H1 H2.
    rewrite sortSlice_perm, <- insertionSort_perm in Hx1.
    by apply (strict_sorted_keys (insertionSort l)).
  - apply sortSlice_sorted.
  - apply insertionSort_sorted.
  - by rewrite sortSlice_perm, insertionSort_perm.
Qed.

Lemma applyInlineStyles_insertion text styles :
  bool_decide (StronglySorted (fun a b => eventLess a b = true)
      (insertionSort (collectEvents (Z.of_nat (length text)) styles))) = true ->
  applyInlineStyles text styles =
  match styles with
  | [] => text
  | _ => fst (sweep 0 text (insertionSort (collectEvents (Z.of_nat (length text)) styles)))
  end.
Proof.
  intros Hs%bool_decide_eq_true. unfold applyInlineStyles.
  destruct styles; [done|]. by rewrite sortSlice_insertion.
Qed.

(** The events in sorted order come out position by position, closes
    first. *)
Lemma sortSlice_closeFirst l : StronglySorted closeFirst (sortSlice l).
Proof.
  eapply StronglySorted_weaken; [|apply sortSlice_sorted].
  intros a b. apply eventLess_false.
Qed.

(** C4. Flattening preserves the text: for a well-formed range set the
    result of [applyInlineStyles] is the text with the markers of a prefix
    [es] of the sorted events inserted, in event order, so that deleting
    these markers gives the text back rune for rune; when moreover no
    length is negative, [es] is all of the events. *)
Theorem flatten_preserves_text (text : gostring) (styles : list InlineStyleRange) :
  Forall (wellFormed (Z.of_nat (length text))) styles ->
  exists es rest,
    sortSlice (collectEvents (Z.of_nat (length text)) styles) = es ++ rest /\
    inserted (map markerOf es) (applyInlineStyles text styles) text /\
    (Z.of_nat (length text) < 2 ^ 63 ->
     Forall (fun s => 0 <= Length s) styles -> rest = []).
Proof.
  intros Hwf. set (n := Z.of_nat (length text)) in *.
  destruct styles as [|s styles].
  - exists [], []. simpl. rewrite sortSlice_nil. split; [done|].
    split; [apply inserted_text|done].
  - set (evs := sortSlice (collectEvents n (s :: styles))).
    destruct (sweep_inserted text 0 evs) as (es & Hsplit & Hins).
    exists es, (snd (sweep 0 text evs)). split; [done|]. split; [exact Hins|].
    intros Hn Hlen. apply sweep_complete; [apply sortSlice_sorted|].
    unfold evs. rewrite sortSlice_perm. simpl (0 + _).
    by apply collectEvents_in_range.
Qed.

(** C5. The emitted events [es] are a prefix of the sorted events; each
    marker stands in front of the rune at its event's position, positions
    ascend, and at every position the markers of the close events come
    before the markers of the open events.  For ranges that lie within the
    text and have no negative length nothing is held back: [es] is all of
    the sorted events, so the marker of every event is written, closes
    first at each position.  On ["abcd"] with Bold over [0,2) and Italic
    over [2,4) the result is ["**ab***cd*"]. *)
Theorem closes_before_opens :
  (forall (text : gostring) (styles : list InlineStyleRange),
    exists es rest,
      sortSlice (collectEvents (Z.of_nat (length text)) styles) = es ++ rest /\
      applyInlineStyles text styles = weave 0 text es /\
      StronglySorted closeFirst es /\
      (forall p, markersAt p es =
                 flat_map markerOf (closesAt p es) ++ flat_map markerOf (opensAt p es)) /\
      (Z.of_nat (length text) < 2 ^ 63 ->
       Forall (wellFormed (Z.of_nat (length text))) styles ->
       Forall (fun s => 0 <= Length s) styles ->
       rest = [])) /\
  (forall (text : gostring) (styles : list InlineStyleRange),
    Z.of_nat (length text) < 2 ^ 63 ->
    Forall (wellFormed (Z.of_nat (length text))) styles ->
    Forall (fun s => 0 <= Length s) styles ->
    let evs := sortSlice (collectEvents (Z.of_nat (length text)) styles) in
    applyInlineStyles text styles = weave 0 text evs /\
    forall p, markersAt p evs =
              flat_map markerOf (closesAt p evs) ++ flat_map markerOf (opensAt p evs)) /\
  applyInlineStyles (lit "abcd") [mkStyle 0 2 "Bold"; mkStyle 2 2 "Italic"]
  = lit "**ab***cd*".
Proof.
  assert (Hgen : forall (text : gostring) (styles : list InlineStyleRange),
    exists es rest,
      sortSlice (collectEvents (Z.of_nat (length text)) styles) = es ++ rest /\
      applyInlineStyles text styles = weave 0 text es /\
      (Z.of_nat (length text) < 2 ^ 63 ->
       Forall (wellFormed (Z.of_nat (length text))) styles ->
       Forall (fun s => 0 <= Length s) styles ->
       rest = [])).
  { intros text styles. set (n := Z.of_nat (length text)).
    destruct styles as [|s styles].
    - exists [], []. simpl. rewrite sortSlice_nil. split; [done|]. split; [|done].
      symmetry. apply weave_later. constructor.
    - set (evs := sortSlice (collectEvents n (s :: styles))).
      destruct (sweep_weave text 0 evs) as (es & Hsplit & _ & Hout).
      exists es, (snd (sweep 0 text evs)). split; [done|]. split; [done|].
      intros Hn Hwf Hlen. apply sweep_complete; [apply sortSlice_sorted|].
      unfold evs. rewrite sortSlice_perm. simpl (0 + _).
      by apply collectEvents_in_range. }
  assert (Hsplit : forall p es, StronglySorted closeFirst es ->
    markersAt p es =
    flat_map markerOf (closesAt p es) ++ flat_map markerOf (opensAt p es)).
  { intros p es Hs. unfold markersAt. rewrite (closeFirst_split p es Hs).
    by rewrite flat_map_app. }
  split; [|split].
  - intros text styles.
    destruct (Hgen text styles) as (es & rest & Hev & Hout & Hall).
    exists es, rest. split; [done|]. split; [done|].
    assert (Hs : StronglySorted closeFirst es).
    { eapply StronglySorted_app_1_l. rewrite <- Hev. apply sortSlice_closeFirst. }
    split; [done|]. split; [|done].
    intros p. by apply Hsplit.
  - intros text styles Hn Hwf Hlen evs.
    destruct (Hgen text styles) as (es & rest & Hev & Hout & Hall).
    specialize (Hall Hn Hwf Hlen). subst rest. rewrite app_nil_r in Hev.
    unfold evs. rewrite Hev. split; [done|].
    intros p. apply Hsplit. rewrite <- Hev. apply sortSlice_closeFirst.
  - rewrite applyInlineStyles_insertion; by vm_compute.
Qed.

(** C2. A range whose offset is negative is not clamped: its open event
    never matches a sweep position and holds back every later event, so
    the markers of the well-formed Italic range are lost as well.  An
    offset beyond the text loses its open marker while the clamped close
    marker is written. *)
Theorem malformed_offset_not_clamped :
  applyInlineStyles (lit "ab") [mkStyle (-1) 1 "Bold"; mkStyle 0 1 "Italic"]
  = lit "ab" /\
  applyInlineStyles (lit "ab") [mkStyle 0 1 "Italic"] = lit "*a*b" /\
  applyInlineStyles (lit "ab") [mkStyle 5 1 "Bold"] = lit "ab**".
Proof.
  repeat split; rewrite applyInlineStyles_insertion; by vm_compute.
Qed.

(** Overlapping ranges: Bold over the whole of ["abcd"], Italic over its
    middle. *)
Example overlapping_ranges :
  applyInlineStyles (lit "abcd") [mkStyle 0 4 "Bold"; mkStyle 1 2 "Italic"]
  = lit "**a*bc*d**".
Proof. rewrite applyInlineStyles_insertion; by vm_compute. Qed.

(** An unknown style name gives empty markers. *)
Example unknown_style :
  applyInlineStyles (lit "abcd") [mkStyle 1 2 "Underline"] = lit "abcd".
Proof. rewrite applyInlineStyles_insertion; by vm_compute. Qed.

(** X9. Any range with a negative offset silences the whole style list:
    its open event sorts first and never meets a sweep position, so no
    marker at all is written and the text comes back unchanged, whatever
    the other ranges are. *)
Lemma negative_offset_drops_all (text : gostring) (styles : list InlineStyleRange) :
  Exists (fun s => Offset s < 0) styles ->
  applyInlineStyles text styles = text.
Proof.
  intros Hex. unfold applyInlineStyles. destruct styles as [|s0 styles]; [done|].
  set (n := Z.of_nat (length text)). set (l := collectEvents n (s0 :: styles)).
  assert (Hin : exists e, e ∈ sortSlice l /\ pos e < 0).
  { apply Exists_exists in Hex as (s & Hs & Hneg).
    exists {| pos := Offset s; style := Style s; start := true |}.
    split; [|done]. rewrite sortSlice_perm. unfold l, collectEvents.
    apply list_elem_of_In, in_flat_map. exists s. split; [|by left].
    by apply list_elem_of_In. }
  destruct Hin as (e & He & Hneg).
  pose proof (sortSlice_sorted l) as Hs.
  destruct (sortSlice l) as [|e0 evs]; [by apply elem_of_nil in He|].
  assert (pos e0 < 0).
  { apply elem_of_cons in He as [->|He]; [done|].
    apply StronglySorted_cons in Hs as [Hall _].
    rewrite Forall_forall in Hall. specialize (Hall e He).
    apply eventLess_false in Hall. lia. }
  by rewrite sweep_stuck.
Qed.
End Flattening.

Lemma flatten_preserves_text_witness :
  let text := lit "abcd" in
  let styles := [mkStyle 0 4 "Bold"; mkStyle 1 2 "Italic"] in
  Forall (wellFormed (Z.of_nat (length text))) styles /\
  exists es rest,
    sortSlice (collectEvents (Z.of_nat (length text)) styles) = es ++ rest /\
    inserted (map markerOf es) (applyInlineStyles text styles) text /\
    (Z.of_nat (length text) < 2 ^ 63 ->
     Forall (fun s => 0 <= Length s) styles -> rest = []).
Proof.
  intros text styles.
  assert (Hwf : Forall (wellFormed (Z.of_nat (length text))) styles).
  { repeat constructor; unfold wellFormed; simpl; lia. }
  split; [exact Hwf|].
  exact (flatten_preserves_text text styles Hwf).
Defined.

Lemma closes_before_opens_witness :
  let text := lit "abcd" in
  let styles := [mkStyle 0 2 "Bold"; mkStyle 2 2 "Italic"] in
  Z.of_nat (length text) < 2 ^ 63 /\
  Forall (wellFormed (Z.of_nat (length text))) styles /\
  Forall (fun s => 0 <= Length s) styles /\
  applyInlineStyles text styles
  = weave 0 text (sortSlice (collectEvents (Z.of_nat (length text)) styles)).
Proof.
  intros text styles.
  assert (Hn : Z.of_nat (length text) < 2 ^ 63) by (simpl; lia).
  assert (Hwf : Forall (wellFormed (Z.of_nat (length text))) styles).
  { repeat constructor; unfold wellFormed; simpl; lia. }
  assert (Hlen : Forall (fun s => 0 <= Length s) styles).
  { repeat constructor; simpl; lia. }
  split; [exact Hn|]. split; [exact Hwf|]. split; [exact Hlen|].
  destruct closes_before_opens as (_ & Hinrange & _).
  exact (proj1 (Hinrange text styles Hn Hwf Hlen)).
Defined.

Lemma negative_offset_drops_all_witness :
  Exists (fun s => Offset s < 0) [mkStyle 0 2 "Bold"; mkStyle (-1) 1 "Italic"] /\
  applyInlineStyles (lit "abcd") [mkStyle 0 2 "Bold"; mkStyle (-1) 1 "Italic"] = lit "abcd".
Proof.
  assert (Hex : Exists (fun s => Offset s < 0) [mkStyle 0 2 "Bold"; mkStyle (-1) 1 "Italic"]).
  { apply Exists_cons_tl, Exists_cons_hd. simpl. lia. }
  split; [exact Hex|].
  exact (negative_offset_drops_all (lit "abcd") _ Hex).
Defined.

(** ** The media lookup *)

Lemma buildMediaLookup_snoc entities e :
  buildMediaLookup (entities ++ [e]) =
  match MediaInfo_ e with
  | Some mi =>
      if negb (bool_decide (OriginalImgURL mi = []))
      then <[MediaID e := OriginalImgURL mi]> (buildMediaLookup entities)
      else buildMediaLookup entities
  | None => buildMediaLookup entities
  end.
Proof. unfold buildMediaLookup. by rewrite fold_left_app. Qed.

(** C7, as the code has it.  The lookup is built by map insertion in list
    order, but only of the entries that carry a non-empty image URL: an id
    maps to the URL of the last such entry bearing it, and is absent when
    there is none. *)
Theorem buildMediaLookup_last_wins (entities : list ArticleMedia) (id : gostring) :
  buildMediaLookup entities !! id = imageURL <$> lastImageBearing id entities.
Proof.
  unfold lastImageBearing.
  induction entities as [|e entities IH] using rev_ind.
  - done.
  - rewrite buildMediaLookup_snoc, filter_app.
    unfold imageURL, hasImage in *.
    destruct (MediaInfo_ e) as [mi|] eqn:Hmi.
    + case_bool_decide as Hurl; simpl.
      * rewrite filter_cons_False, app_nil_r; [done|].
        rewrite Hmi. tauto.
      * destruct (decide (MediaID e = id)) as [Hid|Hid].
        -- rewrite (filter_cons_True _ e) by (rewrite Hmi; done).
           rewrite filter_nil, last_snoc. simpl. rewrite Hmi, Hid.
           by rewrite lookup_insert_eq.
        -- rewrite filter_cons_False, app_nil_r by tauto.
           by rewrite lookup_insert_ne.
    + rewrite filter_cons_False, app_nil_r; [done|].
      rewrite Hmi. tauto.
Qed.

(** The claim as the specification states it fails: the last entry
    bearing the id ["a"] has an empty image URL, the loop skips it, and
    the id keeps the URL of the earlier entry. *)
Lemma buildMediaLookup_last_entry_skipped :
  ~ (forall (entities : list ArticleMedia) (id : gostring) (e : ArticleMedia),
       lastBearing id entities = Some e ->
       buildMediaLookup entities !! id = Some (imageURL e)).
Proof.
  intros Hclaim.
  specialize (Hclaim [mkMedia "a" "u1"; mkMedia "a" ""] (lit "a") (mkMedia "a" "")
                eq_refl).
  vm_compute in Hclaim. discriminate.
Qed.

(** ** The entity scan *)

Lemma renderMediaEntity_no_match (entity : EntityValue) (mediaLookup : gmap (list N) (list N)) :
  Forall (fun ref => mediaLookup !! RefMediaID ref = None) (MediaItems (Data entity)) ->
  renderMediaEntity entity mediaLookup = [].
Proof.
  unfold renderMediaEntity. intros Hall.
  assert (Hfold : forall acc,
    fold_left (fun images ref =>
      match mediaLookup !! RefMediaID ref with
      | Some url => images ++ [lit "![image](" ++ url ++ lit ")"]
      | None => images
      end) (MediaItems (Data entity)) acc = acc).
  { induction Hall as [|ref refs Href _ IH]; intros acc; simpl; [done|].
    rewrite Href. apply IH. }
  by rewrite Hfold.
Qed.

(** C3, as the code has it.  The scan goes on to the next range when the
    key does not resolve and also when it resolves to an entity that is
    neither MEDIA nor DIVIDER; the first range resolving to a MEDIA or
    DIVIDER entity stops it and alone decides the fragment, which is
    empty for a MEDIA entity without a matching media reference. *)
Theorem renderAtomicBlock_first_renderable
    (block : Block) (entityLookup : gmap Z EntityValue)
    (mediaLookup : gmap (list N) (list N)) :
  renderAtomicBlock block entityLookup mediaLookup =
  firstRenderablePolicy block entityLookup mediaLookup /\
  (forall entity rest,
     filter renderable (resolved (EntityRanges block) entityLookup) = entity :: rest ->
     EType entity = lit "MEDIA" ->
     Forall (fun ref => mediaLookup !! RefMediaID ref = None) (MediaItems (Data entity)) ->
     renderAtomicBlock block entityLookup mediaLookup = []).
Proof.
  assert (Heq : renderAtomicBlock block entityLookup mediaLookup =
                firstRenderablePolicy block entityLookup mediaLookup).
  { unfold renderAtomicBlock, firstRenderablePolicy, resolved.
    induction (EntityRanges block) as [|er ers IH]; simpl; [done|].
    destruct (entityLookup !! ERKey er) as [entity|] eqn:Hlk; simpl; [|exact IH].
    destruct (decide (EType entity = lit "MEDIA")) as [Hm|Hm].
    { rewrite bool_decide_eq_true_2 by done.
      rewrite filter_cons_True by (by left). simpl.
      unfold renderEntity. by rewrite bool_decide_eq_true_2. }
    rewrite (bool_decide_eq_false_2 _ Hm).
    destruct (decide (EType entity = lit "DIVIDER")) as [Hd|Hd].
    { rewrite bool_decide_eq_true_2 by done.
      rewrite filter_cons_True by (by right). simpl.
      unfold renderEntity.
      by rewrite (bool_decide_eq_false_2 _ Hm), bool_decide_eq_true_2. }
    rewrite (bool_decide_eq_false_2 _ Hd).
    rewrite filter_cons_False by (unfold renderable; tauto). exact IH. }
  split; [exact Heq|].
  intros entity rest Hfirst Hmedia Hrefs. rewrite Heq.
  unfold firstRenderablePolicy. rewrite Hfirst. simpl.
  unfold renderEntity. rewrite bool_decide_eq_true_2 by done.
  by apply renderMediaEntity_no_match.
Qed.

(** The claim as the specification states it fails: key 0 resolves to a
    LINK entity, yet the scan goes on and key 1 renders the divider. *)
Lemma renderAtomicBlock_resolved_does_not_stop :
  ~ (forall (block : Block) (entityLookup : gmap Z EntityValue)
            (mediaLookup : gmap (list N) (list N)),
       renderAtomicBlock block entityLookup mediaLookup =
       firstResolvedPolicy block entityLookup mediaLookup).
Proof.
  intros Hclaim.
  specialize (Hclaim
    {| Key := []; Text := []; Type_ := lit "atomic"; InlineStyleRanges := [];
       EntityRanges := [mkRange 0; mkRange 1] |}
    (<[1 := mkEntity "DIVIDER"]> (<[0 := mkEntity "LINK"]> ∅)) ∅).
  vm_compute in Hclaim. discriminate.
Qed.

(** ** The ordered-list counter *)

Lemma trailingOrdered_snoc pre b :
  trailingOrdered (pre ++ [b]) =
  if isOrdered b then S (trailingOrdered pre) else O.
Proof. unfold trailingOrdered. by rewrite rev_unit. Qed.

Lemma leadingOrdered_le bs : (leadingOrdered bs <= length bs)%nat.
Proof. induction bs as [|b bs IH]; simpl; [lia|]. destruct (isOrdered b); lia. Qed.

Lemma trailingOrdered_le bs : (trailingOrdered bs <= length bs)%nat.
Proof.
  unfold trailingOrdered. pose proof (leadingOrdered_le (rev bs)) as Hle.
  by rewrite length_rev in Hle.
Qed.

Section Counter.
Context `{SliceSorter}.
Context (entityLookup : gmap Z EntityValue) (mediaLookup : gmap (list N) (list N)).

(** A block of any other type resets the counter. *)
Lemma blockStep_reset st b :
  isOrdered b = false -> snd (blockStep entityLookup mediaLookup st b) = 0.
Proof.
  unfold isOrdered, blockStep. intros Hb. destruct st as [parts c].
  rewrite Hb.
  repeat (case_bool_decide; [done|]).
  repeat (case_bool_decide; simpl; try done).
Qed.

(** An ordered-list item increments it and renders the new value. *)
Lemma blockStep_ordered parts c b :
  isOrdered b = true ->
  blockStep entityLookup mediaLookup (parts, c) b =
  (parts ++ [itoa (int_add c 1) ++ lit ". " ++ flat b], int_add c 1).
Proof.
  unfold isOrdered, blockStep. intros Hb.
  apply bool_decide_eq_true in Hb. rewrite Hb.
  repeat (rewrite bool_decide_eq_false_2 by (vm_compute; discriminate)).
  by rewrite bool_decide_eq_true_2.
Qed.

Lemma renderBlocks_snoc pre b st :
  renderBlocks entityLookup mediaLookup (pre ++ [b]) st =
  blockStep entityLookup mediaLookup (renderBlocks entityLookup mediaLookup pre st) b.
Proof. unfold renderBlocks. by rewrite fold_left_app. Qed.

(** After any prefix of the blocks the counter is the length of the run of
    ordered-list items the prefix ends with. *)
Lemma renderBlocks_counter pre :
  Z.of_nat (length pre) < 2 ^ 63 ->
  snd (renderBlocks entityLookup mediaLookup pre ([], 0)) = Z.of_nat (trailingOrdered pre).
Proof.
  induction pre as [|b pre IH] using rev_ind; intros Hlen; [done|].
  rewrite length_app in Hlen. simpl in Hlen.
  rewrite renderBlocks_snoc, trailingOrdered_snoc.
  destruct (isOrdered b) eqn:Hb.
  - destruct (renderBlocks entityLookup mediaLookup pre ([], 0)) as [parts c] eqn:Hpre.
    rewrite blockStep_ordered by done. cbn [fst snd] in *.
    rewrite IH by lia. unfold int_add.
    pose proof (trailingOrdered_le pre).
    rewrite int_wrap_small by (unfold int_range; lia). lia.
  - by apply blockStep_reset.
Qed.

(** C6. A block that is not an ordered-list item leaves the counter at 0;
    an ordered-list item standing after the blocks [pre] is rendered with
    the number one plus the length of the run of ordered-list items that
    [pre] ends with, and leaves the counter at this number.  Two ordered
    items, an unstyled block and two more ordered items are numbered 1, 2
    and again 1, 2.  The bound on the length holds of every Go slice and
    keeps the 64-bit counter from wrapping. *)
Theorem ordered_list_numbering (pre : list Block) (b : Block) :
  Z.of_nat (length pre) < 2 ^ 63 - 1 ->
  (isOrdered b = false ->
   snd (renderBlocks entityLookup mediaLookup (pre ++ [b]) ([], 0)) = 0) /\
  (isOrdered b = true ->
   renderBlocks entityLookup mediaLookup (pre ++ [b]) ([], 0) =
   (fst (renderBlocks entityLookup mediaLookup pre ([], 0))
      ++ [itoa (1 + Z.of_nat (trailingOrdered pre)) ++ lit ". " ++ flat b],
    1 + Z.of_nat (trailingOrdered pre))) /\
  DraftJSToMarkdown
    (Some {| Blocks := [mkBlock "ordered-list-item" "a"; mkBlock "ordered-list-item" "b";
                        mkBlock "unstyled" "x";
                        mkBlock "ordered-list-item" "c"; mkBlock "ordered-list-item" "d"];
             EntityMap := [] |}) []
  = Join [lit "1. a"; lit "2. b"; lit "x"; lit "1. c"; lit "2. d"] [nl; nl].
Proof.
  intros Hlen. split; [|split].
  - intros Hb. rewrite renderBlocks_snoc. by apply blockStep_reset.
  - intros Hb. rewrite renderBlocks_snoc.
    pose proof (renderBlocks_counter pre ltac:(lia)) as Hc.
    destruct (renderBlocks entityLookup mediaLookup pre ([], 0)) as [parts c].
    cbn [fst snd] in *. subst c. rewrite blockStep_ordered by done.
    pose proof (trailingOrdered_le pre).
    unfold int_add. rewrite int_wrap_small by (unfold int_range; lia).
    by rewrite (Z.add_comm 1).
  - by vm_compute.
Qed.
End Counter.

Lemma ordered_list_numbering_witness :
  let pre := [mkBlock "ordered-list-item" "a"] in
  let b := mkBlock "ordered-list-item" "b" in
  Z.of_nat (length pre) < 2 ^ 63 - 1 /\
  renderBlocks ∅ ∅ (pre ++ [b]) ([], 0) = ([lit "1. a"; lit "2. b"], 2).
Proof.
  intros pre b.
  assert (Hlen : Z.of_nat (length pre) < 2 ^ 63 - 1) by (simpl; lia).
  split; [exact Hlen|].
  exact (proj1 (proj2 (ordered_list_numbering ∅ ∅ pre b Hlen)) eq_refl).
Defined.

(** ** The empty document *)

(** C10. A nil content and a content without blocks render as the empty
    string, whatever the entity map and the media entities are. *)
Theorem DraftJSToMarkdown_empty `{SliceSorter} :
  (forall mediaEntities, DraftJSToMarkdown None mediaEntities = []) /\
  (forall entityMap mediaEntities,
     DraftJSToMarkdown (Some {| Blocks := []; EntityMap := entityMap |}) mediaEntities
     = []).
Proof. split; reflexivity. Qed.

(** ** Decoding an entity-map key *)

Lemma lit_String a s : lit (String a s) = N_of_ascii a :: lit s.
Proof. reflexivity. Qed.

Lemma digitsToUint_print u :
  digitsToUint (lit (NilEmpty.string_of_uint u)) = Some u.
Proof.
  induction u; cbn [NilEmpty.string_of_uint]; [done|..];
    rewrite lit_String; cbn [digitsToUint]; rewrite IHu; reflexivity.
Qed.

Lemma digits_print u :
  forallb isDigit (lit (NilEmpty.string_of_uint u)) = true.
Proof.
  induction u; cbn [NilEmpty.string_of_uint]; [done|..];
    rewrite lit_String; cbn [forallb]; rewrite IHu; reflexivity.
Qed.

Lemma nzhead_not_D0 u u' : Decimal.nzhead u <> Decimal.D0 u'.
Proof. induction u; simpl; try discriminate. exact IHu. Qed.

Lemma to_uint_nonzeroHead p : nonzeroHead (Pos.to_uint p) = true.
Proof.
  assert (Hnorm : Decimal.unorm (Pos.to_uint p) = Pos.to_uint p).
  { rewrite <- (DecimalPos.Unsigned.to_of (Pos.to_uint p)).
    by rewrite DecimalPos.Unsigned.of_to. }
  pose proof (DecimalPos.Unsigned.to_uint_nonzero p) as Hnz.
  pose proof (DecimalPos.Unsigned.to_uint_nonnil p) as Hnn.
  destruct (Pos.to_uint p) as [|u| | | | | | | | |]; try done.
  exfalso. rewrite DecimalFacts.unorm_D0 in Hnorm. unfold Decimal.unorm in Hnorm.
  destruct (Decimal.nzhead u) eqn:Hh; try discriminate.
  - injection Hnorm as <-. by apply Hnz.
  - exact (nzhead_not_D0 _ _ Hh).
Qed.

Lemma plainChar_facts c :
  plainChar c = true ->
  isJSONSpace c = false /\ (c =? 34)%N = false /\ (c =? 92)%N = false /\
  (c <? 32)%N = false /\ c <> 110%N /\ (c =? 43)%N = false.
Proof.
  unfold plainChar, isDigit, isJSONSpace.
  rewrite orb_true_iff, andb_true_iff, !N.leb_le, N.eqb_eq.
  intros Hc. repeat split;
    repeat match goal with
    | |- (_ || _)%bool = false => apply orb_false_intro
    | |- (_ =? _)%N = false => apply N.eqb_neq
    | |- (_ <? _)%N = false => apply N.ltb_ge
    end; lia.
Qed.

Lemma print_plain u :
  Forall (fun c => plainChar c = true) (lit (NilEmpty.string_of_uint u)).
Proof.
  induction u; cbn [NilEmpty.string_of_uint]; [constructor|..];
    rewrite lit_String; by constructor.
Qed.

(** The three shapes of what [itoa] writes. *)
Lemma itoa_shape z :
  match z with
  | 0 => itoa z = [48%N]
  | Z.pos p => itoa z = lit (NilEmpty.string_of_uint (Pos.to_uint p))
  | Z.neg p => itoa z = 45%N :: lit (NilEmpty.string_of_uint (Pos.to_uint p))
  end.
Proof.
  destruct z as [|p|p]; [done|..]; unfold itoa; cbn [Z.to_int NilZero.string_of_int];
    pose proof (DecimalPos.Unsigned.to_uint_nonnil p) as Hnn;
    unfold NilZero.string_of_uint; destruct (Pos.to_uint p); done.
Qed.

Lemma itoa_plain z : Forall (fun c => plainChar c = true) (itoa z).
Proof.
  pose proof (itoa_shape z) as Hs. destruct z; rewrite Hs.
  - by repeat constructor.
  - apply print_plain.
  - constructor; [done|apply print_plain].
Qed.

Lemma jsonNaturalToken_print u :
  nonzeroHead u = true ->
  jsonNaturalToken (lit (NilEmpty.string_of_uint u)) = true.
Proof.
  intros Hh. pose proof (digits_print u) as Hd.
  destruct u; try discriminate;
    (cbn [NilEmpty.string_of_uint] in *;
     rewrite lit_String in *; cbn [forallb] in Hd;
     apply andb_true_iff in Hd as [_ Hd]; unfold jsonNaturalToken;
     destruct (lit (NilEmpty.string_of_uint u)); [done|by rewrite Hd]).
Qed.

Lemma jsonIntegerToken_itoa z : jsonIntegerToken (itoa z) = true.
Proof.
  pose proof (itoa_shape z) as Hs. destruct z as [|p|p]; rewrite Hs; [done|..].
  - pose proof (jsonNaturalToken_print _ (to_uint_nonzeroHead p)) as Hn.
    pose proof (print_plain (Pos.to_uint p)) as Hp.
    pose proof (to_uint_nonzeroHead p) as Hh.
    destruct (Pos.to_uint p); try discriminate;
      cbn [NilEmpty.string_of_uint] in *; rewrite lit_String in *; exact Hn.
  - cbn [jsonIntegerToken]. rewrite N.eqb_refl.
    apply jsonNaturalToken_print, to_uint_nonzeroHead.
Qed.

Lemma Atoi_print u (neg : bool) :
  nonzeroHead u = true ->
  let z := if neg then - Z.of_uint u else Z.of_uint u in
  int_range z ->
  Atoi ((if neg then [45%N] else []) ++ lit (NilEmpty.string_of_uint u)) = Some z.
Proof.
  intros Hh z Hz.
  assert (Hbody : match lit (NilEmpty.string_of_uint u) with
                  | [] => None
                  | _ => match digitsToUint (lit (NilEmpty.string_of_uint u)) with
                         | None => None
                         | Some u' =>
                             let z := if neg then - Z.of_uint u' else Z.of_uint u' in
                             if (- 2 ^ 63 <=? z) && (z <? 2 ^ 63) then Some z else None
                         end
                  end = Some z).
  { rewrite digitsToUint_print.
    assert (Hne : lit (NilEmpty.string_of_uint u) <> []).
    { destruct u; try discriminate; cbn [NilEmpty.string_of_uint];
        rewrite lit_String; discriminate. }
    destruct (lit (NilEmpty.string_of_uint u)); [done|].
    cbn zeta. fold z. unfold int_range in Hz.
    destruct (Z.leb_spec (- 2 ^ 63) z), (Z.ltb_spec z (2 ^ 63)); try lia. done. }
  destruct neg; cbn [app].
  - unfold Atoi. rewrite (N.eqb_refl 45).
    replace (45 =? 43)%N with false by reflexivity. exact Hbody.
  - unfold Atoi.
    destruct u; try discriminate; cbn [NilEmpty.string_of_uint] in *;
      rewrite lit_String in *; exact Hbody.
Qed.

Lemma Atoi_itoa z : int_range z -> Atoi (itoa z) = Some z.
Proof.
  intros Hz. pose proof (itoa_shape z) as Hs.
  destruct z as [|p|p]; rewrite Hs; [reflexivity|..].
  - pose proof (Atoi_print (Pos.to_uint p) false (to_uint_nonzeroHead p)) as Ha.
    unfold Z.of_uint in Ha. rewrite DecimalPos.Unsigned.of_to in Ha.
    by apply Ha.
  - pose proof (Atoi_print (Pos.to_uint p) true (to_uint_nonzeroHead p)) as Ha.
    unfold Z.of_uint in Ha. rewrite DecimalPos.Unsigned.of_to in Ha.
    by apply Ha.
Qed.

Lemma dropJSONSpace_id s :
  Forall (fun c => isJSONSpace c = false) s -> dropJSONSpace s = s.
Proof. destruct 1 as [|c s Hc _]; simpl; [done|by rewrite Hc]. Qed.

Lemma trimJSON_id s :
  Forall (fun c => isJSONSpace c = false) s -> trimJSON s = s.
Proof.
  intros Hs. unfold trimJSON. rewrite (dropJSONSpace_id s Hs).
  rewrite dropJSONSpace_id by (by apply List.Forall_rev).
  apply rev_involutive.
Qed.

Lemma unquoteBody_plain body :
  Forall (fun c => plainChar c = true) body ->
  unquoteBody (body ++ [34%N]) = Some body.
Proof.
  induction 1 as [|c body Hc _ IH]; [done|].
  apply plainChar_facts in Hc as (_ & Hq & Hb & Hctl & _).
  cbn [app unquoteBody]. rewrite Hq, Hb, Hctl, IH. done.
Qed.

Lemma plain_not_space s :
  Forall (fun c => plainChar c = true) s ->
  Forall (fun c => isJSONSpace c = false) s.
Proof.
  intros Hs. eapply Forall_impl; [exact Hs|].
  intros c Hc. by apply plainChar_facts in Hc as (? & _).
Qed.

Lemma itoa_not_null z : itoa z <> lit "null".
Proof.
  pose proof (itoa_plain z) as Hp. intros Heq. rewrite Heq in Hp.
  inversion Hp as [|? ? Hc _]. by apply plainChar_facts in Hc as (_&_&_&_&?&_).
Qed.

(** A bare integer decodes to itself. *)
Lemma UnmarshalJSON_bare f z :
  int_range z -> UnmarshalJSON f (itoa z) = (None, z).
Proof.
  intros Hz. unfold UnmarshalJSON, jsonUnmarshalInt.
  rewrite trimJSON_id by apply plain_not_space, itoa_plain.
  rewrite bool_decide_eq_false_2 by apply itoa_not_null.
  by rewrite jsonIntegerToken_itoa, Atoi_itoa.
Qed.

Lemma quoted_trim s :
  Forall (fun c => plainChar c = true) s -> trimJSON (quoted s) = quoted s.
Proof.
  intros Hs. apply trimJSON_id. unfold quoted.
  constructor; [done|]. apply Forall_app. split; [by apply plain_not_space|].
  by repeat constructor.
Qed.

(** The same integer inside a string decodes to the same value. *)
Lemma UnmarshalJSON_quoted f z :
  int_range z -> UnmarshalJSON f (quoted (itoa z)) = (None, z).
Proof.
  intros Hz. unfold UnmarshalJSON, jsonUnmarshalInt, jsonUnmarshalString.
  rewrite quoted_trim by apply itoa_plain.
  rewrite bool_decide_eq_false_2 by (unfold quoted; discriminate).
  assert (Hnot : jsonIntegerToken (quoted (itoa z)) = false).
  { unfold quoted. cbn. by destruct (itoa z). }
  rewrite Hnot. unfold quoted at 1. cbn [N.eqb Pos.eqb].
  rewrite unquoteBody_plain by apply itoa_plain.
  by rewrite Atoi_itoa.
Qed.

(** An integer token never opens with a quote. *)
Lemma jsonIntegerToken_not_quote body :
  jsonIntegerToken (34%N :: body) = false.
Proof. cbn. by destruct body. Qed.

Lemma UnmarshalJSON_error_iff f data :
  is_Some (fst (UnmarshalJSON f data)) <->
  isNull data = false /\ validInteger data = false /\ numericString data = false.
Proof.
  unfold UnmarshalJSON, jsonUnmarshalInt, jsonUnmarshalString, isNull,
    validInteger, numericString.
  case_bool_decide as Hnull; cbn [fst].
  { split; [by intros [? ?]|by intros [? _]]. }
  destruct (jsonIntegerToken (trimJSON data)) eqn:Htok.
  - destruct (Atoi (trimJSON data)) as [z|] eqn:Hatoi; cbn [fst andb].
    + rewrite bool_decide_eq_true_2 by eauto.
      split; [by intros [? ?]|by intros (_ & ? & _)].
    + rewrite bool_decide_eq_false_2 by (by intros [? ?]).
      destruct (trimJSON data) as [|c body]; cbn [fst].
      { split; [done|eauto]. }
      destruct (N.eqb_spec c 34) as [->|Hc]; cbn [andb].
      { by rewrite jsonIntegerToken_not_quote in Htok. }
      split; [done|eauto].
  - cbn [andb]. destruct (trimJSON data) as [|c body]; cbn [fst].
    { split; [done|eauto]. }
    destruct (N.eqb_spec c 34) as [->|Hc]; cbn [andb fst]; [|split; [done|eauto]].
    destruct (unquoteBody body) as [s|]; cbn [fst]; [|split; [done|eauto]].
    destruct (Atoi s) as [n|] eqn:Hs; cbn [fst].
    + rewrite bool_decide_eq_true_2 by eauto.
      split; [by intros [? ?]|by intros (_ & _ & ?)].
    + rewrite bool_decide_eq_false_2 by (by intros [? ?]).
      split; [done|eauto].
Qed.

Lemma UnmarshalJSON_error_keeps f data :
  is_Some (fst (UnmarshalJSON f data)) -> snd (UnmarshalJSON f data) = f.
Proof.
  unfold UnmarshalJSON.
  destruct (jsonUnmarshalInt data 0); [by intros [? ?]|].
  destruct (jsonUnmarshalString data []) as [s|]; [|done].
  destruct (Atoi s); [by intros [? ?]|done].
Qed.

(** C8, as the code has it.  A bare integer and the same integer inside a
    string decode to the same value; a JSON [null] is accepted too and
    gives 0; an error is returned exactly when the input is neither
    [null], nor a valid integer, nor a numeric string, and then the
    receiver keeps its value. *)
Theorem UnmarshalJSON_decodes_keys :
  (forall f z, int_range z ->
     UnmarshalJSON f (itoa z) = (None, z) /\
     UnmarshalJSON f (quoted (itoa z)) = (None, z)) /\
  UnmarshalJSON 7 (lit "3") = UnmarshalJSON 7 (quoted (lit "3")) /\
  (forall f, UnmarshalJSON f (lit "null") = (None, 0)) /\
  (forall f data,
     is_Some (fst (UnmarshalJSON f data)) <->
     isNull data = false /\ validInteger data = false /\ numericString data = false) /\
  (forall f data,
     is_Some (fst (UnmarshalJSON f data)) -> snd (UnmarshalJSON f data) = f) /\
  (forall f, UnmarshalJSON f (quoted (lit "abc")) = (Some (CannotParse (lit "abc")), f)) /\
  (forall f, UnmarshalJSON f (lit "abc") = (Some (CannotUnmarshal (lit "abc")), f)).
Proof.
  split; [|split; [|split; [|split; [|split; [|split]]]]].
  - intros f z Hz. split; [by apply UnmarshalJSON_bare|by apply UnmarshalJSON_quoted].
  - reflexivity.
  - reflexivity.
  - apply UnmarshalJSON_error_iff.
  - apply UnmarshalJSON_error_keeps.
  - reflexivity.
  - reflexivity.
Qed.

(** The claim as the specification states it fails on the input [null],
    which is neither a valid integer nor a numeric string and is decoded
    without an error. *)
Lemma UnmarshalJSON_null_is_no_error :
  ~ (forall f data,
       is_Some (fst (UnmarshalJSON f data)) <->
       validInteger data = false /\ numericString data = false).
Proof.
  intros Hclaim.
  destruct (proj2 (Hclaim 7 (lit "null")) (conj eq_refl eq_refl)) as [e He].
  discriminate He.
Qed.

(** ** The regular-expression search *)

(** A match hands a suffix of its input to the continuation. *)
Lemma rmatch_suffix r : forall s cs k res,
  rmatch r s cs k = Some res ->
  exists s' cs', suffix s' s /\ k s' cs' = Some res.
Proof.
  induction r as [|p|a IHa b IHb|a IHa b IHb|greedy p|a IHa|i a IHa];
    intros s cs k res; cbn [rmatch].
  - intros Hk. by exists s, cs.
  - destruct s as [|c s']; [done|]. destruct (p c); [|done].
    intros Hk. exists s', cs. split; [by apply suffix_cons_r|done].
  - intros Ha. apply IHa in Ha as (s1 & cs1 & Hs1 & Hb).
    apply IHb in Hb as (s2 & cs2 & Hs2 & Hk).
    exists s2, cs2. split; [by etrans|done].
  - unfold orElse. destruct (rmatch a s cs k) eqn:Ha.
    + intros [= <-]. by apply IHa in Ha.
    + apply IHb.
  - induction s as [|c s' IHs].
    + intros Hk. by exists [], cs.
    + destruct (p c); [|intros Hk; by exists (c :: s'), cs].
      unfold orElse. destruct greedy.
      * match goal with |- context [match ?x with _ => _ end] => destruct x eqn:Hstar end.
        -- intros [= <-]. destruct (IHs Hstar) as (s2 & cs2 & Hs2 & Hk).
           exists s2, cs2. split; [by apply suffix_cons_r|done].
        -- intros Hk. by exists (c :: s'), cs.
      * destruct (k (c :: s') cs) eqn:Hk.
        -- intros [= <-]. by exists (c :: s'), cs.
        -- intros Hstar. destruct (IHs Hstar) as (s2 & cs2 & Hs2 & Hk2).
           exists s2, cs2. split; [by apply suffix_cons_r|done].
  - unfold orElse. destruct (rmatch a s cs k) eqn:Ha.
    + intros [= <-]. by apply IHa in Ha.
    + intros Hk. by exists s, cs.
  - intros Ha. apply IHa in Ha as (s1 & cs1 & Hs1 & Hk). eauto.
Qed.

Lemma matchHere_suffix r s rest cs :
  matchHere r s = Some (rest, cs) -> suffix rest s.
Proof.
  unfold matchHere. intros Hm.
  apply rmatch_suffix in Hm as (s' & cs' & Hs & [= <- <-]). done.
Qed.

(** A match splits the searched text. *)
Lemma findFrom_split r : forall s skipped m,
  findFrom r skipped s = Some m ->
  rev skipped ++ s = before m ++ matched m ++ after m.
Proof.
  induction s as [|c s IH]; intros skipped m; cbn [findFrom].
  - destruct (matchHere r []) as [[rest cs]|] eqn:Hm; [|done].
    intros [= <-]. cbn. apply matchHere_suffix in Hm as [pre Hpre].
    symmetry in Hpre. apply app_eq_nil in Hpre as [_ ->]. done.
  - destruct (matchHere r (c :: s)) as [[rest cs]|] eqn:Hm.
    + intros [= <-]. cbn [before matched after]. f_equal.
      apply matchHere_suffix in Hm as [pre Hpre].
      assert (Hlen : (length (c :: s) - length rest = length pre)%nat).
      { rewrite Hpre, length_app. lia. }
      change (S (length s)) with (length (c :: s)).
      rewrite Hlen, Hpre. by rewrite take_app_length.
    + intros Hf. apply IH in Hf. rewrite <- Hf. cbn [rev].
      by rewrite <- app_assoc.
Qed.

Lemma find_split r s m :
  find r s = Some m -> s = before m ++ matched m ++ after m.
Proof. intros Hf. by apply findFrom_split in Hf. Qed.

(** The fuel of the replacement loop is never used up: more fuel than the
    length of the input gives the same result. *)
Lemma replaceLoop_fuel r repl : forall fuel1 fuel2 atStart gap rest,
  (length rest < fuel1)%nat -> (length rest < fuel2)%nat ->
  replaceLoop fuel1 r repl atStart gap rest = replaceLoop fuel2 r repl atStart gap rest.
Proof.
  induction fuel1 as [|fuel1 IH]; intros fuel2 atStart gap rest H1 H2; [lia|].
  destruct fuel2 as [|fuel2]; [lia|]. cbn [replaceLoop].
  destruct (find r rest) as [m|] eqn:Hf; [|done].
  apply find_split in Hf.
  destruct (before m ++ matched m) as [|x xs] eqn:Hbm.
  - destruct rest as [|c rest']; [done|]. f_equal.
    apply IH; simpl in *; lia.
  - f_equal. apply IH.
    + rewrite Hf, app_assoc, Hbm in H1. rewrite length_app in H1. simpl in H1. lia.
    + rewrite Hf, app_assoc, Hbm in H2. rewrite length_app in H2. simpl in H2. lia.
Qed.

Lemma allMatchesLoop_fuel r : forall fuel1 fuel2 adjacent rest,
  (length rest < fuel1)%nat -> (length rest < fuel2)%nat ->
  allMatchesLoop fuel1 r adjacent rest = allMatchesLoop fuel2 r adjacent rest.
Proof.
  induction fuel1 as [|fuel1 IH]; intros fuel2 adjacent rest H1 H2; [lia|].
  destruct fuel2 as [|fuel2]; [lia|]. cbn [allMatchesLoop].
  destruct (find r rest) as [m|] eqn:Hf; [|done].
  apply find_split in Hf.
  destruct (before m ++ matched m) as [|x xs] eqn:Hbm.
  - destruct rest as [|c rest']; [done|].
    rewrite (IH fuel2 false rest') by (simpl in *; lia). done.
  - f_equal. apply IH.
    + rewrite Hf, app_assoc, Hbm in H1. rewrite length_app in H1. simpl in H1. lia.
    + rewrite Hf, app_assoc, Hbm in H2. rewrite length_app in H2. simpl in H2. lia.
Qed.

(** What [rmatch] consumes is a text of the expression. *)
Lemma rmatch_sound r : forall s cs k res,
  rmatch r s cs k = Some res ->
  exists x s' cs', s = x ++ s' /\ lang r x /\ k s' cs' = Some res.
Proof.
  induction r as [|p|a IHa b IHb|a IHa b IHb|greedy p|a IHa|i a IHa];
    intros s cs k res; cbn [rmatch].
  - intros Hk. exists [], s, cs. split; [done|]. split; [constructor|done].
  - destruct s as [|c s']; [done|]. destruct (p c) eqn:Hp; [|done].
    intros Hk. exists [c], s', cs. split; [done|]. split; [by constructor|done].
  - intros Ha. apply IHa in Ha as (x & s1 & cs1 & -> & Hx & Hb).
    apply IHb in Hb as (y & s2 & cs2 & -> & Hy & Hk).
    exists (x ++ y), s2, cs2. split; [by rewrite app_assoc|].
    split; [by constructor|done].
  - unfold orElse. destruct (rmatch a s cs k) eqn:Ha.
    + intros [= <-]. apply IHa in Ha as (x & s1 & cs1 & -> & Hx & Hk).
      exists x, s1, cs1. split; [done|]. split; [by apply lang_alt_l|done].
    + intros Hb. apply IHb in Hb as (x & s1 & cs1 & -> & Hx & Hk).
      exists x, s1, cs1. split; [done|]. split; [by apply lang_alt_r|done].
  - revert res. induction s as [|c s' IHs]; intros res.
    + intros Hk. exists [], [], cs. split; [done|]. split; [constructor|done].
    + destruct (p c) eqn:Hp.
      2:{ intros Hk. exists [], (c :: s'), cs.
          split; [done|]. split; [constructor|done]. }
      assert (Hmore : forall res',
        (fix star (s : list N) : option (list N * list (nat * list N)) :=
           match s with
           | [] => k [] cs
           | c :: s' =>
               if p c
               then if greedy then orElse (star s') (k s cs)
                    else orElse (k s cs) (star s')
               else k s cs
           end) s' = Some res' ->
        exists x s1 cs1, c :: s' = x ++ s1 /\ lang (RStar greedy p) x /\
                         k s1 cs1 = Some res').
      { intros res' Hstar. destruct (IHs _ Hstar) as (x & s1 & cs1 & -> & Hx & Hk).
        exists (c :: x), s1, cs1. split; [done|]. split; [by constructor|done]. }
      assert (Hstop : forall res', k (c :: s') cs = Some res' ->
        exists x s1 cs1, c :: s' = x ++ s1 /\ lang (RStar greedy p) x /\
                         k s1 cs1 = Some res').
      { intros res' Hk. exists [], (c :: s'), cs.
        split; [done|]. split; [constructor|done]. }
      unfold orElse. destruct greedy.
      * match goal with |- context [match ?x with _ => _ end] => destruct x eqn:Hstar end.
        -- intros [= <-]. by apply Hmore.
        -- apply Hstop.
      * destruct (k (c :: s') cs) eqn:Hk.
        -- intros [= <-]. by apply Hstop.
        -- apply Hmore.
  - unfold orElse. destruct (rmatch a s cs k) eqn:Ha.
    + intros [= <-]. apply IHa in Ha as (x & s1 & cs1 & -> & Hx & Hk).
      exists x, s1, cs1. split; [done|]. split; [by apply lang_opt_some|done].
    + intros Hk. exists [], s, cs. split; [done|]. split; [apply lang_opt_none|done].
  - intros Ha. apply IHa in Ha as (x & s1 & cs1 & -> & Hx & Hk).
    eexists x, s1, _. split; [done|]. split; [by constructor|exact Hk].
Qed.

(** Where a text of the expression starts the input and the continuation
    accepts what follows, [rmatch] finds a match. *)
Lemma rmatch_complete r x :
  lang r x ->
  forall s' cs k,
    (forall cs', is_Some (k s' cs')) -> is_Some (rmatch r (x ++ s') cs k).
Proof.
  induction 1 as [|p c Hp|a b x y _ IHa _ IHb|a b x _ IHa|a b x _ IHb
                 |greedy p|greedy p c x Hp _ IHx|a x _ IHa|a|i a x _ IHa];
    intros s' cs k Hk; cbn [rmatch app].
  - apply Hk.
  - rewrite Hp. apply Hk.
  - rewrite <- app_assoc. apply IHa. intros cs'. by apply IHb.
  - unfold orElse. specialize (IHa s' cs k Hk).
    destruct (rmatch a (x ++ s') cs k); [done|]. by destruct IHa.
  - unfold orElse. specialize (IHb s' cs k Hk).
    destruct (rmatch a (x ++ s') cs k); [done|exact IHb].
  - destruct s' as [|c s'']; [apply Hk|].
    destruct (p c); [|apply Hk]. unfold orElse. destruct greedy.
    + match goal with |- is_Some (match ?x with _ => _ end) => destruct x end;
        [done|apply Hk].
    + specialize (Hk cs). destruct (k (c :: s'') cs); [done|]. by destruct Hk.
  - rewrite Hp. specialize (IHx s' cs k Hk). cbn [rmatch] in IHx.
    unfold orElse. destruct greedy.
    + match goal with |- is_Some (match ?o with _ => _ end) => destruct o eqn:E end;
        [done|].
      destruct IHx as [res Hres]. discriminate (eq_trans (eq_sym E) Hres).
    + destruct (k (c :: x ++ s') cs); [done|exact IHx].
  - unfold orElse. specialize (IHa s' cs k Hk).
    destruct (rmatch a (x ++ s') cs k); [done|]. by destruct IHa.
  - unfold orElse. destruct (rmatch a s' cs k); [done|apply Hk].
  - apply IHa. intros cs'. apply Hk.
Qed.

(** The callbacks of [ReplaceAllStringFunc] search the matched text with
    the expression that matched it; this search always finds a match. *)
Lemma rematch_found r s m :
  find r s = Some m -> is_Some (FindStringSubmatch r (matched m)).
Proof.
  intros Hf.
  assert (Hlang : lang r (matched m)).
  { clear -Hf. unfold find in Hf. revert Hf. generalize (@nil N).
    induction s as [|c s IH]; intros skipped; cbn [findFrom].
    - destruct (matchHere r []) as [[rest cs]|] eqn:Hm; [|done].
      intros [= <-]. cbn [matched]. unfold matchHere in Hm.
      apply rmatch_sound in Hm as (x & s' & cs' & Hsplit & Hx & [= <- <-]).
      symmetry in Hsplit. apply app_eq_nil in Hsplit as [-> ->]. exact Hx.
    - destruct (matchHere r (c :: s)) as [[rest cs]|] eqn:Hm; [|apply IH].
      intros [= <-]. cbn [matched]. unfold matchHere in Hm.
      apply rmatch_sound in Hm as (x & s' & cs' & Hsplit & Hx & [= <- <-]).
      assert (Hlen : (length (c :: s) - length s' = length x)%nat).
      { rewrite Hsplit, length_app. lia. }
      change (S (length s)) with (length (c :: s)).
      rewrite Hlen, Hsplit. by rewrite take_app_length. }
  pose proof (rmatch_complete r (matched m) Hlang [] []
                (fun s' cs => Some (s', cs)) (fun cs' => ltac:(eauto))) as Hsome.
  rewrite app_nil_r in Hsome.
  unfold FindStringSubmatch, find. destruct (matched m) as [|c x]; cbn [findFrom];
    unfold matchHere; destruct Hsome as [[rest cs] ->]; eauto.
Qed.

(** ** The HTML renderer *)

(** The code block of the specification's example: alone in the fragment,
    the fence keeps its language and its text. *)
Example HTMLToMarkdown_code_block (decodeEntities : gostring -> gostring) :
  HTMLToMarkdown decodeEntities
    (lit "<pre><code class=" ++ [quote_] ++ lit "language-go" ++ [quote_]
     ++ lit ">a < b</code></pre>")
  = lit "```go" ++ [nl] ++ lit "a < b" ++ [nl] ++ lit "```".
Proof. vm_compute. reflexivity. Qed.

(** Lists are numbered per list, and the items lose their inner tags. *)
Example HTMLToMarkdown_lists (decodeEntities : gostring -> gostring) :
  HTMLToMarkdown decodeEntities
    (lit "<ol><li>one</li><li><b>two</b></li></ol><ul><li>x</li></ul><ol><li>y</li></ol>")
  = Join [lit "1. one"; lit "2. two"; []; lit "- x"; []; lit "1. y"] [nl].
Proof. vm_compute. reflexivity. Qed.

(** C9. The heading and the paragraph of the example come out as a level-2
    heading, one blank line and the paragraph with its bold and italic
    words marked; nothing else is in the output. *)
Theorem HTMLToMarkdown_heading_paragraph (decodeEntities : gostring -> gostring) :
  HTMLToMarkdown decodeEntities
    (lit "<h2>Title</h2><p>Some <b>bold</b> and <i>italic</i>.</p>")
  = lit "## Title" ++ [nl; nl] ++ lit "Some **bold** and *italic*.".
Proof. vm_compute. reflexivity. Qed.

(** C1. The fenced block the pre/code pass writes is not protected from
    the later passes.  The fence written for [<pre>a < b</pre>] holds the
    text [a < b]; the tag-stripping pass then takes everything from this
    angle bracket to the end of the next tag, the closing fence included.
    A run of blank lines inside the fence is collapsed and blanks at the
    end of a code line are dropped by the white-space pass. *)
Theorem pre_content_not_protected (decodeEntities : gostring -> gostring) :
  processPreBlocks decodeEntities (lit "<pre>a < b</pre><u>x</u>")
  = [nl; nl] ++ lit "```" ++ [nl] ++ lit "a < b" ++ [nl] ++ lit "```" ++ [nl; nl]
    ++ lit "<u>x</u>" /\
  HTMLToMarkdown decodeEntities (lit "<pre>a < b</pre><u>x</u>")
  = lit "```" ++ [nl] ++ lit "a x" /\
  processPreBlocks decodeEntities (lit "<pre>a  " ++ [nl; nl; nl] ++ lit "b</pre>")
  = [nl; nl] ++ lit "```" ++ [nl] ++ lit "a  " ++ [nl; nl; nl] ++ lit "b" ++ [nl]
    ++ lit "```" ++ [nl; nl] /\
  HTMLToMarkdown decodeEntities (lit "<pre>a  " ++ [nl; nl; nl] ++ lit "b</pre>")
  = lit "```" ++ [nl] ++ lit "a" ++ [nl; nl] ++ lit "b" ++ [nl] ++ lit "```".
Proof. repeat split; vm_compute; reflexivity. Qed.

(** ** Threads *)

Lemma insert_middle {A} (l1 l2 : list A) (x y : A) (n : nat) :
  n = length l1 -> <[n := y]> (l1 ++ x :: l2) = l1 ++ y :: l2.
Proof.
  intros ->. rewrite insert_app_r_alt by lia.
  by rewrite Nat.sub_diag.
Qed.

Ltac list_length :=
  repeat (rewrite ?length_app, ?length_rev in *; cbn [length] in *); lia.

(** The loop reverses the part of the slice between its two indices and
    leaves the rest in place. *)
Lemma reverseLoop_middle {A} (fuel : nat) : forall (pre mid post : list A),
  (length mid <= 2 * fuel + 1)%nat ->
  reverseLoop fuel (pre ++ mid ++ post)
    (Z.of_nat (length pre)) (Z.of_nat (length pre + length mid) - 1)
  = pre ++ rev mid ++ post.
Proof.
  induction fuel as [|fuel IH]; intros pre mid post Hlen.
  - destruct mid as [|x [|x' mid]]; simpl in Hlen; try lia; done.
  - cbn [reverseLoop].
    destruct mid as [|x mid]; [|destruct mid as [|x' mid] using rev_ind].
    + rewrite (proj2 (Z.ltb_ge _ _)) by list_length. done.
    + rewrite (proj2 (Z.ltb_ge _ _)) by list_length. done.
    + clear IHmid. rename x' into y.
      rewrite (proj2 (Z.ltb_lt _ _)) by list_length.
      rewrite Nat2Z.id.
      replace (Z.to_nat (Z.of_nat (length pre + length (x :: mid ++ [y])) - 1))
        with (length (pre ++ x :: mid))
        by list_length.
      assert (HL1 : pre ++ (x :: mid ++ [y]) ++ post = pre ++ x :: (mid ++ y :: post)).
      { cbn [app]. by rewrite <- app_assoc. }
      assert (HL2 : pre ++ x :: (mid ++ y :: post) = (pre ++ x :: mid) ++ y :: post).
      { by rewrite <- app_assoc. }
      assert (Hi : (pre ++ (x :: mid ++ [y]) ++ post) !! length pre = Some x).
      { rewrite HL1. by apply list_lookup_middle. }
      assert (Hj : (pre ++ (x :: mid ++ [y]) ++ post) !! length (pre ++ x :: mid) = Some y).
      { rewrite HL1, HL2. by apply list_lookup_middle. }
      rewrite Hi, Hj.
      assert (Hins : <[length (pre ++ x :: mid) := x]>
                       (<[length pre := y]> (pre ++ (x :: mid ++ [y]) ++ post))
                     = (pre ++ [y]) ++ mid ++ (x :: post)).
      { rewrite HL1, (insert_middle pre _ x y) by done.
        replace (pre ++ y :: mid ++ y :: post) with ((pre ++ y :: mid) ++ y :: post)
          by (by rewrite <- app_assoc).
        rewrite (insert_middle (pre ++ y :: mid) post y x) by list_length.
        by rewrite <- !app_assoc. }
      rewrite Hins.
      replace (Z.of_nat (length pre) + 1) with (Z.of_nat (length (pre ++ [y])))
        by list_length.
      replace (Z.of_nat (length pre + length (x :: mid ++ [y])) - 1 - 1)
        with (Z.of_nat (length (pre ++ [y]) + length mid) - 1)
        by list_length.
      rewrite IH.
      * cbn [rev]. rewrite rev_app_distr. cbn [rev app].
        by rewrite <- !app_assoc.
      * list_length.
Qed.

Lemma reverseLoop_all {A} (l : list A) :
  reverseLoop (length l) l 0 (Z.of_nat (length l) - 1) = rev l.
Proof.
  pose proof (reverseLoop_middle (length l) [] l [] ltac:(lia)) as H.
  rewrite !app_nil_r in H. exact H.
Qed.

(** X1. The in-place loop of [reverse], which swaps the elements at two
    indices moving towards each other, leaves the slice in reverse
    order. *)
Theorem reverse_rev {A} (tweets : list A) : reverse tweets = rev tweets.
Proof. unfold reverse. apply reverseLoop_all. Qed.

Section ThreadFacts.
Context {World E : Type}.
Variable FetchTweet : gostring -> gostring -> World -> (E + Tweet) * World.
Variable EqualFold : gostring -> gostring -> bool.

(** What the loop adds to a chain: at most [n] tweets, which are a
    traversal upwards from the current id and all but the last of which the
    traversal went on from; an error only on an empty chain and from the
    fetch of the current id. *)
Lemma threadLoop_spec n : forall chain sn id w,
  match fst (threadLoop FetchTweet EqualFold n chain sn id w) with
  | inl err =>
      chain = [] /\
      exists cause, fst (FetchTweet sn id w) = inl cause /\ err = FailedToFetch id cause
  | inr out =>
      exists more,
        out = chain ++ more /\ (length more <= n)%nat /\
        Forall (followed EqualFold) (removelast more) /\
        (more = [] \/ ascent FetchTweet EqualFold sn id w more) /\
        (n <> O -> chain = [] ->
         match fst (FetchTweet sn id w) with
         | inl _ => False
         | inr t => exists more', more = t :: more'
         end)
  end.
Proof.
  induction n as [|n IH]; intros chain sn id w; cbn [threadLoop].
  - cbn [fst]. exists []. rewrite app_nil_r.
    split; [done|]. split; [done|]. split; [constructor|]. split; [by left|done].
  - destruct (FetchTweet sn id w) as [[cause|tweet] w'] eqn:Hfetch; cbn [fst].
    + destruct chain as [|t chain]; cbn [isNil fst].
      * split; [done|]. by exists cause.
      * exists []. rewrite app_nil_r.
        split; [done|]. split; [simpl; lia|]. split; [constructor|].
        split; [by left|done].
    + assert (Hstop : exists more : list Tweet,
        chain ++ [tweet] = chain ++ more /\ (length more <= S n)%nat /\
        Forall (followed EqualFold) (removelast more) /\
        (more = [] \/ ascent FetchTweet EqualFold sn id w more) /\
        (S n <> O -> chain = [] -> exists more', more = tweet :: more')).
      { exists [tweet]. split; [done|]. split; [simpl; lia|].
        split; [constructor|]. split; [right; by eapply ascent_last|].
        intros _ _. by exists []. }
      destruct (isNil (ReplyingToStatus tweet)) eqn:Hreply; [exact Hstop|].
      destruct (repliesToOther EqualFold tweet) eqn:Hother; [exact Hstop|].
      clear Hstop.
      assert (Hfollowed : followed EqualFold tweet).
      { split; [|done]. by destruct (ReplyingToStatus tweet). }
      match goal with |- context [threadLoop _ _ n ?c ?s ?i ?w] =>
        specialize (IH c s i w);
        destruct (fst (threadLoop FetchTweet EqualFold n c s i w)) as [err|out]
      end.
      * destruct IH as [Hnil _]. by destruct chain.
      * destruct IH as (more & -> & Hlen & Hall & Hasc & _).
        exists (tweet :: more). rewrite <- app_assoc.
        split; [done|]. split; [simpl; lia|]. split; [|split].
        -- destruct more as [|t more]; [constructor|].
           change (removelast (tweet :: t :: more)) with (tweet :: removelast (t :: more)).
           by constructor.
        -- right. destruct Hasc as [->|Hasc]; [by eapply ascent_last|].
           by eapply ascent_step.
        -- intros _ _. by exists more.
Qed.

(** Two neighbours of a traversal: the earlier one is a tweet the traversal
    went on from, and the later one is what a fetch of its
    [ReplyingToStatus] returned. *)
Lemma ascent_adjacent l1 child parent l2 : forall sn id w,
  ascent FetchTweet EqualFold sn id w (l1 ++ child :: parent :: l2) ->
  followed EqualFold child /\
  exists sn' w', fst (FetchTweet sn' (ReplyingToStatus child) w') = inr parent.
Proof.
  induction l1 as [|x l1 IH]; intros sn id w Hasc; cbn [app] in Hasc.
  - inversion Hasc as [|? ? ? ? w1 ? Hfetch Hfol Hrest]; subst.
    split; [done|].
    exists (nextScreenName sn child), w1.
    inversion Hrest as [? ? ? ? w2 Hf|? ? ? ? w2 ? Hf _ _]; subst; by rewrite Hf.
  - inversion Hasc as [? ? ? ? ? ? Heq|? ? ? ? w1 ? Hfetch Hfol Hrest]; subst.
    + by destruct l1.
    + by apply (IH _ _ _ Hrest).
Qed.

(** X2. [FetchThread] fails exactly when the fetch of the requested tweet
    fails, with an error naming the requested id; a later failure ends the
    traversal without an error. *)
Theorem FetchThread_error (screenName id : gostring) (w : World) :
  match fst (FetchTweet screenName id w) with
  | inl cause =>
      fst (FetchThread FetchTweet EqualFold screenName id w)
      = inl (FailedToFetch id cause)
  | inr _ =>
      exists chain, fst (FetchThread FetchTweet EqualFold screenName id w) = inr chain
  end.
Proof.
  pose proof (threadLoop_spec maxThreadDepth [] screenName id w) as Hspec.
  unfold FetchThread.
  destruct (threadLoop FetchTweet EqualFold maxThreadDepth [] screenName id w)
    as [[err|out] w'] eqn:Hloop; cbn [fst] in *.
  - destruct Hspec as (_ & cause & -> & ->). done.
  - destruct Hspec as (more & _ & _ & _ & _ & Hfirst).
    specialize (Hfirst ltac:(done) eq_refl).
    destruct (fst (FetchTweet screenName id w)); [done|by eexists].
Qed.

(** X3. A thread that is returned is in chronological order: read from
    its end it is the traversal from the requested tweet upwards, so that
    of two neighbours the later one is a tweet the traversal went on from
    and the earlier one is what the fetch of the later one's
    [ReplyingToStatus] returned.  It ends with the requested tweet, holds
    at most [maxThreadDepth] tweets, and every tweet but the oldest answers
    a status of its own author. *)
Theorem FetchThread_chain (screenName id : gostring) (w : World) (chain : list Tweet) :
  fst (FetchThread FetchTweet EqualFold screenName id w) = inr chain ->
  ascent FetchTweet EqualFold screenName id w (rev chain) /\
  (forall pre parent child post,
     chain = pre ++ parent :: child :: post ->
     followed EqualFold child /\
     exists sn w', fst (FetchTweet sn (ReplyingToStatus child) w') = inr parent) /\
  (exists older requested,
     fst (FetchTweet screenName id w) = inr requested /\
     chain = older ++ [requested] /\
     (length chain <= maxThreadDepth)%nat /\
     Forall (followed EqualFold) (tail chain)).
Proof.
  pose proof (threadLoop_spec maxThreadDepth [] screenName id w) as Hspec.
  unfold FetchThread.
  destruct (threadLoop FetchTweet EqualFold maxThreadDepth [] screenName id w)
    as [[err|out] w'] eqn:Hloop; cbn [fst] in *; [done|].
  intros [= <-].
  destruct Hspec as (more & -> & Hlen & Hfollowed & Hasc & Hfirst).
  specialize (Hfirst ltac:(done) eq_refl).
  destruct (fst (FetchTweet screenName id w)) as [|requested]; [done|].
  destruct Hfirst as [more' ->]. cbn [app] in *.
  destruct Hasc as [|Hasc]; [done|].
  unfold reverse. rewrite reverseLoop_all.
  assert (Hlinks : ascent FetchTweet EqualFold screenName id w
                     (rev (rev (requested :: more')))) by (by rewrite rev_involutive).
  split; [exact Hlinks|]. split.
  - intros pre parent child post Hchain. rewrite Hchain in Hlinks.
    rewrite rev_app_distr in Hlinks. cbn [rev] in Hlinks.
    rewrite <- !app_assoc in Hlinks. cbn [app] in Hlinks.
    by apply ascent_adjacent in Hlinks.
  - exists (rev more'), requested. split; [done|].
    cbn [rev]. split; [done|]. split.
    + unfold maxThreadDepth in *. list_length.
    + clear -Hfollowed. rewrite <- (rev_involutive more') in Hfollowed.
      destruct (rev more') as [|oldest rest]; [constructor|].
      cbn [rev app tail] in *.
      assert (Hrl : removelast (requested :: rev rest ++ [oldest]) = requested :: rev rest).
      { change (requested :: rev rest ++ [oldest]) with ((requested :: rev rest) ++ [oldest]).
        by rewrite removelast_last. }
      rewrite Hrl in Hfollowed.
      apply Forall_app. split.
      * apply List.Forall_rev in Hfollowed. cbn [rev] in Hfollowed.
        rewrite rev_involutive in Hfollowed.
        by apply Forall_app in Hfollowed as [? _].
      * constructor; [|constructor]. by inversion Hfollowed.
Qed.
End ThreadFacts.

Lemma FetchThread_chain_witness :
  fst (FetchThread sampleNetwork sameName (lit "joe") (lit "2") tt)
  = inr [mkTweet "1" "joe" "" ""; mkTweet "2" "joe" "joe" "1"] /\
  ascent sampleNetwork sameName (lit "joe") (lit "2") tt
    (rev [mkTweet "1" "joe" "" ""; mkTweet "2" "joe" "joe" "1"]) /\
  (forall pre parent child post,
     [mkTweet "1" "joe" "" ""; mkTweet "2" "joe" "joe" "1"]
     = pre ++ parent :: child :: post ->
     followed sameName child /\
     exists sn w', fst (sampleNetwork sn (ReplyingToStatus child) w') = inr parent) /\
  (exists older requested,
     fst (sampleNetwork (lit "joe") (lit "2") tt) = inr requested /\
     [mkTweet "1" "joe" "" ""; mkTweet "2" "joe" "joe" "1"] = older ++ [requested] /\
     (length [mkTweet "1" "joe" "" ""; mkTweet "2" "joe" "joe" "1"] <= maxThreadDepth)%nat /\
     Forall (followed sameName) (tail [mkTweet "1" "joe" "" ""; mkTweet "2" "joe" "joe" "1"])).
Proof.
  split; [vm_compute; reflexivity|].
  apply (FetchThread_chain sampleNetwork sameName (lit "joe") (lit "2") tt).
  vm_compute. reflexivity.
Defined.

(** ** More on the regular-expression search *)

(** Without capture groups the captures reach the continuation as they
    are. *)
Lemma rmatch_sound_plain r : noGroups r = true -> forall s cs k res,
  rmatch r s cs k = Some res ->
  exists x s', s = x ++ s' /\ lang r x /\ k s' cs = Some res.
Proof.
  induction r as [|p|a IHa b IHb|a IHa b IHb|greedy p|a IHa|i a IHa];
    intros Hng s cs k res; cbn [rmatch noGroups] in *; try discriminate.
  - intros Hk. exists [], s. split; [done|]. split; [constructor|done].
  - destruct s as [|c s']; [done|]. destruct (p c) eqn:Hp; [|done].
    intros Hk. exists [c], s'. split; [done|]. split; [by constructor|done].
  - apply andb_true_iff in Hng as [Ha Hb]. intros Hm.
    apply (IHa Ha) in Hm as (x & s1 & -> & Hx & Hm).
    apply (IHb Hb) in Hm as (y & s2 & -> & Hy & Hk).
    exists (x ++ y), s2. split; [by rewrite app_assoc|]. split; [by constructor|done].
  - apply andb_true_iff in Hng as [Ha Hb]. unfold orElse.
    destruct (rmatch a s cs k) eqn:Hm.
    + intros [= <-]. apply (IHa Ha) in Hm as (x & s1 & -> & Hx & Hk).
      exists x, s1. split; [done|]. split; [by apply lang_alt_l|done].
    + intros Hm'. apply (IHb Hb) in Hm' as (x & s1 & -> & Hx & Hk).
      exists x, s1. split; [done|]. split; [by apply lang_alt_r|done].
  - revert res. induction s as [|c s' IHs]; intros res.
    + intros Hk. exists [], []. split; [done|]. split; [constructor|done].
    + destruct (p c) eqn:Hp.
      2:{ intros Hk. exists [], (c :: s'). split; [done|]. split; [constructor|done]. }
      assert (Hmore : forall res',
        (fix star (s : list N) : option (list N * list (nat * list N)) :=
           match s with
           | [] => k [] cs
           | c :: s' =>
               if p c
               then if greedy then orElse (star s') (k s cs)
                    else orElse (k s cs) (star s')
               else k s cs
           end) s' = Some res' ->
        exists x s1, c :: s' = x ++ s1 /\ lang (RStar greedy p) x /\ k s1 cs = Some res').
      { intros res' Hstar. destruct (IHs _ Hstar) as (x & s1 & -> & Hx & Hk).
        exists (c :: x), s1. split; [done|]. split; [by constructor|done]. }
      assert (Hstop : forall res', k (c :: s') cs = Some res' ->
        exists x s1, c :: s' = x ++ s1 /\ lang (RStar greedy p) x /\ k s1 cs = Some res').
      { intros res' Hk. exists [], (c :: s'). split; [done|]. split; [constructor|done]. }
      unfold orElse. destruct greedy.
      * match goal with |- context [match ?o with _ => _ end] => destruct o eqn:Hstar end.
        -- intros [= <-]. by apply Hmore.
        -- apply Hstop.
      * destruct (k (c :: s') cs) eqn:Hk.
        -- intros [= <-]. by apply Hstop.
        -- apply Hmore.
  - unfold orElse. destruct (rmatch a s cs k) eqn:Hm.
    + intros [= <-]. apply (IHa Hng) in Hm as (x & s1 & -> & Hx & Hk).
      exists x, s1. split; [done|]. split; [by apply lang_opt_some|done].
    + intros Hk. exists [], s. split; [done|]. split; [apply lang_opt_none|done].
Qed.

(** A group around such an expression records the text it matched. *)
Lemma rmatch_sound_group i a : noGroups a = true -> forall s cs k res,
  rmatch (RGroup i a) s cs k = Some res ->
  exists x s', s = x ++ s' /\ lang a x /\ k s' ((i, x) :: cs) = Some res.
Proof.
  intros Hng s cs k res. cbn [rmatch]. intros Hm.
  apply (rmatch_sound_plain a Hng) in Hm as (x & s' & -> & Hx & Hk).
  exists x, s'. split; [done|]. split; [done|].
  rewrite length_app in Hk.
  replace (length x + length s' - length s')%nat with (length x) in Hk by lia.
  by rewrite take_app_length in Hk.
Qed.

Lemma lang_rlit p x : lang (rlit false p) x -> x = p.
Proof.
  revert x. induction p as [|c p IH]; intros x; cbn [rlit].
  - by inversion 1.
  - inversion 1 as [| |a b x1 x2 Hc Hp| | | | | | |]; subst.
    inversion Hc as [|q c' Hq| | | | | | | |]; subst.
    apply N.eqb_eq in Hq as ->. cbn [app]. f_equal. by apply IH.
Qed.

Lemma lang_star greedy p x :
  lang (RStar greedy p) x -> Forall (fun c => p c = true) x.
Proof.
  remember (RStar greedy p) as r eqn:Hr.
  induction 1; try discriminate; injection Hr as -> ->; [constructor|].
  constructor; [done|]. by apply IHlang.
Qed.

(** One or more runes of a class. *)
Lemma lang_plus greedy p x :
  lang (RSeq (RChar p) (RStar greedy p)) x ->
  x <> [] /\ Forall (fun c => p c = true) x.
Proof.
  inversion 1 as [| |a b x1 x2 Hc Hs| | | | | | |]; subst.
  inversion Hc; subst. apply lang_star in Hs. split; [done|]. by constructor.
Qed.

(** Where the search finds a match, the expression matches at the start
    of the matched text, up to the text after it. *)
Lemma findFrom_matchHere r : forall s skipped m,
  findFrom r skipped s = Some m ->
  matchHere r (matched m ++ after m) = Some (after m, groups m).
Proof.
  assert (Hhere : forall s rest cs,
    matchHere r s = Some (rest, cs) ->
    matchHere r (take (length s - length rest) s ++ rest) = Some (rest, cs)).
  { intros s rest cs Hm. pose proof (matchHere_suffix _ _ _ _ Hm) as [pre ->].
    rewrite length_app.
    replace (length pre + length rest - length rest)%nat with (length pre) by lia.
    by rewrite take_app_length. }
  induction s as [|c s IH]; intros skipped m; cbn [findFrom].
  - destruct (matchHere r []) as [[rest cs]|] eqn:Hm; [|done].
    intros [= <-]. exact (Hhere _ _ _ Hm).
  - destruct (matchHere r (c :: s)) as [[rest cs]|] eqn:Hm; [|apply IH].
    intros [= <-]. exact (Hhere _ _ _ Hm).
Qed.

Lemma find_lang r s m : find r s = Some m -> lang r (matched m).
Proof.
  intros Hf. apply findFrom_matchHere in Hf. unfold matchHere in Hf.
  apply rmatch_sound in Hf as (x & s' & cs' & Hsplit & Hx & [= Hs' _]).
  rewrite Hs' in Hsplit. apply app_inv_tail in Hsplit. by rewrite Hsplit.
Qed.

Lemma noGroups_rlit fold p : noGroups (rlit fold p) = true.
Proof. induction p as [|c p IH]; [done|]. cbn [rlit noGroups]. by rewrite IH. Qed.

Lemma rmatch_seq_sound a b : noGroups a = true -> forall s cs k res,
  rmatch (RSeq a b) s cs k = Some res ->
  exists x s', s = x ++ s' /\ lang a x /\ rmatch b s' cs k = Some res.
Proof. intros Hng s cs k res Hm. exact (rmatch_sound_plain a Hng s cs _ res Hm). Qed.

Lemma rmatch_seq_group_sound i a b : noGroups a = true -> forall s cs k res,
  rmatch (RSeq (RGroup i a) b) s cs k = Some res ->
  exists x s', s = x ++ s' /\ lang a x /\ rmatch b s' ((i, x) :: cs) k = Some res.
Proof. intros Hng s cs k res Hm. exact (rmatch_sound_group i a Hng s cs _ res Hm). Qed.

(** ** The URL patterns *)

(** A match of a URL pattern at the start of [s]: a host, a screen name,
    the path word and an id, with the two groups holding the screen name
    and the id. *)
Lemma urlPattern_sound kind s rest cs :
  matchHere (urlPattern kind) s = Some (rest, cs) ->
  exists host name id,
    lang hostRe host /\ validScreenName name /\ validID id /\
    s = host ++ [slash_] ++ name ++ [slash_] ++ lit kind ++ [slash_] ++ id ++ rest /\
    cs = [(2%nat, id); (1%nat, name)].
Proof.
  unfold matchHere, urlPattern, rseq. cbn [fold_right]. intros Hm.
  apply rmatch_seq_sound in Hm as (host & s1 & -> & Hhost & Hm); [|done].
  apply rmatch_seq_sound in Hm as (sl & s2 & -> & Hsl & Hm); [|done].
  inversion Hsl as [|p c Hc| | | | | | | |]; subst. apply N.eqb_eq in Hc as ->.
  apply rmatch_seq_group_sound in Hm as (name & s3 & -> & Hname & Hm); [|done].
  apply rmatch_seq_sound in Hm as (w & s4 & -> & Hw & Hm); [|apply noGroups_rlit].
  apply lang_rlit in Hw as ->.
  apply rmatch_seq_group_sound in Hm as (id & s5 & -> & Hid & Hm); [|done].
  cbn [rmatch] in Hm. injection Hm as <- <-.
  apply lang_plus in Hname as [Hn1 Hn2]. apply lang_plus in Hid as [Hi1 Hi2].
  exists host, name, id. split; [done|]. split; [|split; [done|]].
  - split; [done|]. eapply Forall_impl; [exact Hn2|].
    intros c Hc ->. by vm_compute in Hc.
  - split; [|done]. cbn [app]. by rewrite <- !app_assoc.
Qed.

Lemma find_urlPattern kind s m :
  find (urlPattern kind) s = Some m ->
  exists host,
    lang hostRe host /\
    validScreenName (submatch m 1) /\ validID (submatch m 2) /\
    s = before m ++ host ++ [slash_] ++ submatch m 1 ++ [slash_] ++ lit kind
        ++ [slash_] ++ submatch m 2 ++ after m.
Proof.
  intros Hf. pose proof (find_split _ _ _ Hf) as Hsplit.
  apply findFrom_matchHere, urlPattern_sound in Hf
    as (host & name & id & Hhost & Hname & Hid & Hs & Hcs).
  exists host. unfold submatch. rewrite Hcs.
  change (group [(2%nat, id); (1%nat, name)] 1) with name.
  change (group [(2%nat, id); (1%nat, name)] 2) with id.
  split; [done|]. split; [done|]. split; [done|].
  rewrite Hsplit. by rewrite Hs.
Qed.

(** ** [ParseURL] *)

(** X4. What [ParseURL] returns was read off the input: the trimmed input
    holds a host of the pattern, a slash, the screen name, the path word of
    the type between slashes, and the id; the screen name is not empty and
    has no slash, the id is a non-empty run of ASCII digits, and
    [OriginalURL] is the x.com form of the three. *)
Theorem ParseURL_sound (rawURL : gostring) (info : URLInfo) :
  ParseURL rawURL = inr info ->
  validScreenName (UScreenName info) /\ validID (UID info) /\
  OriginalURL info
  = normalizeOriginalURL (UScreenName info) (lit (pathWord (UType info))) (UID info) /\
  exists pre host post,
    lang hostRe host /\
    TrimSpace rawURL
    = pre ++ host ++ [slash_] ++ UScreenName info ++ [slash_]
      ++ lit (pathWord (UType info)) ++ [slash_] ++ UID info ++ post.
Proof.
  unfold ParseURL, FindStringSubmatch, articleURLPattern, tweetURLPattern.
  destruct (find (urlPattern "article") (TrimSpace rawURL)) as [m|] eqn:Ha.
  - intros [= <-]. cbn [UScreenName UID UType OriginalURL pathWord].
    apply find_urlPattern in Ha as (host & Hhost & Hname & Hid & Hs).
    split; [done|]. split; [done|]. split; [done|].
    by exists (before m), host, (after m).
  - destruct (find (urlPattern "status") (TrimSpace rawURL)) as [m|] eqn:Ht; [|done].
    intros [= <-]. cbn [UScreenName UID UType OriginalURL pathWord].
    apply find_urlPattern in Ht as (host & Hhost & Hname & Hid & Hs).
    split; [done|]. split; [done|]. split; [done|].
    by exists (before m), host, (after m).
Qed.

Lemma ParseURL_sound_witness :
  ParseURL (lit " https://twitter.com/joe/status/12345?s=20 ")
  = inr {| UType := URLTypeTweet; UScreenName := lit "joe"; UID := lit "12345";
           OriginalURL := lit "https://x.com/joe/status/12345" |} /\
  validScreenName (lit "joe") /\ validID (lit "12345").
Proof.
  assert (Hparse : ParseURL (lit " https://twitter.com/joe/status/12345?s=20 ")
    = inr {| UType := URLTypeTweet; UScreenName := lit "joe"; UID := lit "12345";
             OriginalURL := lit "https://x.com/joe/status/12345" |})
    by (vm_compute; reflexivity).
  split; [exact Hparse|].
  destruct (ParseURL_sound _ _ Hparse) as (Hname & Hid & _).
  split; [exact Hname|exact Hid].
Defined.

(** ** Completeness of the search *)

Lemma matchHere_complete r x post : lang r x -> is_Some (matchHere r (x ++ post)).
Proof. intros Hx. apply rmatch_complete; [done|]. intros cs'. by eexists. Qed.

Lemma findFrom_complete r x post : forall pre skipped,
  lang r x -> is_Some (findFrom r skipped (pre ++ x ++ post)).
Proof.
  induction pre as [|c pre IH]; intros skipped Hx.
  - destruct (matchHere_complete r x post Hx) as [[rest cs] Hm].
    cbn [app]. destruct (x ++ post) as [|c s]; cbn [findFrom]; rewrite Hm; by eexists.
  - cbn [app findFrom].
    destruct (matchHere r (c :: pre ++ x ++ post)) as [[rest cs]|]; [by eexists|].
    by apply IH.
Qed.

(** The search fails exactly when no part of the input is a text of the
    expression. *)
Lemma find_None r s :
  find r s = None <-> forall pre x post, s = pre ++ x ++ post -> ~ lang r x.
Proof.
  split.
  - intros Hf pre x post -> Hx.
    destruct (findFrom_complete r x post pre [] Hx) as [m Hm].
    unfold find in Hf. congruence.
  - intros Hno. destruct (find r s) as [m|] eqn:Hf; [exfalso|done].
    apply (Hno (before m) (matched m) (after m)).
    + exact (find_split _ _ _ Hf).
    + exact (find_lang _ _ _ Hf).
Qed.

(** X5. [ParseURL] fails exactly when no part of the trimmed input is a
    text of the article pattern or of the status pattern, and the error
    then carries the trimmed input. *)
Theorem ParseURL_error_iff (rawURL e : gostring) :
  ParseURL rawURL = inl e <->
  e = TrimSpace rawURL /\
  forall pre x post, TrimSpace rawURL = pre ++ x ++ post ->
    ~ lang articleURLPattern x /\ ~ lang tweetURLPattern x.
Proof.
  unfold ParseURL, FindStringSubmatch. split.
  - destruct (find articleURLPattern (TrimSpace rawURL)) as [m|] eqn:Ha; [done|].
    destruct (find tweetURLPattern (TrimSpace rawURL)) as [m|] eqn:Ht; [done|].
    intros [= <-]. split; [done|]. intros pre x post Hs.
    split; [eapply (proj1 (find_None _ _) Ha)|eapply (proj1 (find_None _ _) Ht)];
      exact Hs.
  - intros [-> Hno].
    assert (Ha : find articleURLPattern (TrimSpace rawURL) = None).
    { apply find_None. intros pre x post Hs. by apply (Hno pre x post). }
    assert (Ht : find tweetURLPattern (TrimSpace rawURL) = None).
    { apply find_None. intros pre x post Hs. by apply (Hno pre x post). }
    by rewrite Ha, Ht.
Qed.

(** ** The canonical URL *)

Lemma rmatch_rlit p s cs k : rmatch (rlit false p) (p ++ s) cs k = k s cs.
Proof.
  revert s. induction p as [|c p IH]; intros s; [done|].
  cbn [rlit app rmatch]. unfold isRune at 1. rewrite N.eqb_refl. apply IH.
Qed.

(** A greedy repetition takes all of a run of its class when what follows
    the run does not belong to the class and the rest of the expression
    matches there. *)
Lemma rmatch_star_run p x s' cs k res :
  Forall (fun c => p c = true) x ->
  match s' with [] => True | c :: _ => p c = false end ->
  k s' cs = Some res ->
  rmatch (RStar true p) (x ++ s') cs k = Some res.
Proof.
  intros Hx Hstop Hk. cbn [rmatch].
  induction Hx as [|c x Hc Hx IH]; cbn [app].
  - destruct s' as [|c s']; [done|]. by rewrite Hstop.
  - rewrite Hc. by rewrite IH.
Qed.

Lemma rmatch_group_run i p x s' cs k res :
  x <> [] -> Forall (fun c => p c = true) x ->
  match s' with [] => True | c :: _ => p c = false end ->
  k s' ((i, x) :: cs) = Some res ->
  rmatch (RGroup i (RSeq (RChar p) (RStar true p))) (x ++ s') cs k = Some res.
Proof.
  intros Hne Hx Hstop Hk. destruct x as [|c x]; [done|].
  inversion Hx as [|? ? Hc Hx']; subst.
  change (rmatch (RGroup i (RSeq (RChar p) (RStar true p))) ((c :: x) ++ s') cs k)
    with (if p c then
            rmatch (RStar true p) (x ++ s') cs
              (fun s2 cs2 =>
                 k s2 ((i, take (length ((c :: x) ++ s') - length s2) ((c :: x) ++ s')) :: cs2))
          else None).
  rewrite Hc. apply rmatch_star_run; [done|done|].
  rewrite length_app.
  replace (length (c :: x) + length s' - length s')%nat with (length (c :: x)) by lia.
  by rewrite take_app_length.
Qed.

Lemma hostRe_canonical s cs k res :
  k s cs = Some res ->
  rmatch hostRe (lit "https://x.com" ++ s) cs k = Some res.
Proof.
  intros Hk. unfold hostRe, rseq. cbn. by rewrite Hk.
Qed.

Lemma isDigit_not_slash c : isDigit c = true -> notRune slash_ c = true.
Proof.
  unfold isDigit, notRune, slash_. intros [H1 H2]%andb_true_iff.
  apply N.leb_le in H1. apply negb_true_iff, N.eqb_neq. lia.
Qed.

(** The pattern of a kind matches the canonical URL of that kind from its
    first rune to its last. *)
Lemma urlPattern_canonical kind name id :
  validScreenName name -> validID id ->
  matchHere (urlPattern kind) (normalizeOriginalURL name (lit kind) id)
  = Some ([], [(2%nat, id); (1%nat, name)]).
Proof.
  intros [Hn1 Hn2] [Hi1 Hi2].
  unfold matchHere, urlPattern, normalizeOriginalURL, rseq. cbn [fold_right].
  change (lit "https://x.com/") with (lit "https://x.com" ++ [slash_]).
  rewrite <- app_assoc.
  change (rmatch (RSeq hostRe ?b) ?s ?cs ?k)
    with (rmatch hostRe s cs (fun s' cs' => rmatch b s' cs' k)).
  apply hostRe_canonical.
  cbn [app]. change (rmatch (RSeq (RChar ?p) ?b) (?c :: ?s) ?cs ?k)
    with (if p c then rmatch b s cs k else None).
  change (isRune slash_ slash_) with true. cbv iota.
  change (rmatch (RSeq ?a ?b) ?s ?cs ?k)
    with (rmatch a s cs (fun s' cs' => rmatch b s' cs' k)).
  apply rmatch_group_run; [done| |done|].
  { eapply Forall_impl; [exact Hn2|]. intros c Hc.
    apply negb_true_iff, N.eqb_neq. exact Hc. }
  change (rmatch (RSeq ?a ?b) ?s ?cs ?k)
    with (rmatch a s cs (fun s' cs' => rmatch b s' cs' k)).
  replace (slash_ :: lit kind ++ slash_ :: id)
    with ((slash_ :: lit kind ++ [slash_]) ++ id)
    by (cbn [app]; by rewrite <- app_assoc).
  rewrite rmatch_rlit.
  change (rmatch (RSeq ?a ?b) ?s ?cs ?k)
    with (rmatch a s cs (fun s' cs' => rmatch b s' cs' k)).
  rewrite <- (app_nil_r id) at 1.
  by apply rmatch_group_run.
Qed.

Lemma findFrom_here r skipped s rest cs :
  matchHere r s = Some (rest, cs) ->
  findFrom r skipped s
  = Some {| before := rev skipped; matched := take (length s - length rest) s;
            groups := cs; after := rest |}.
Proof. intros Hm. destruct s; cbn [findFrom]; by rewrite Hm. Qed.

Lemma find_canonical kind name id :
  validScreenName name -> validID id ->
  exists m, find (urlPattern kind) (normalizeOriginalURL name (lit kind) id) = Some m /\
            submatch m 1 = name /\ submatch m 2 = id.
Proof.
  intros Hname Hid. pose proof (urlPattern_canonical kind name id Hname Hid) as Hm.
  unfold find. rewrite (findFrom_here _ _ _ _ _ Hm). eexists. split; [done|]. done.
Qed.

Lemma TrimSpace_keep c s d :
  isSpace c = false -> isSpace d = false ->
  TrimSpace (c :: s ++ [d]) = c :: s ++ [d].
Proof.
  intros Hc Hd. unfold TrimSpace. cbn [TrimLeftSpace]. rewrite Hc.
  change (c :: s ++ [d]) with ((c :: s) ++ [d]).
  rewrite rev_app_distr. cbn [rev app TrimLeftSpace]. rewrite Hd.
  change (d :: rev s ++ [c]) with ([d] ++ rev (c :: s)).
  rewrite rev_app_distr, rev_involutive. done.
Qed.

Lemma isDigit_not_space d : isDigit d = true -> isSpace d = false.
Proof.
  unfold isDigit, isSpace. intros [H1 H2]%andb_true_iff.
  apply N.leb_le in H1, H2.
  repeat (apply orb_false_intro);
    try (apply andb_false_iff; (left; apply N.leb_gt; lia) || (right; apply N.leb_gt; lia));
    try (apply N.eqb_neq; lia).
Qed.

Lemma TrimSpace_canonical name kind id :
  validID id ->
  TrimSpace (normalizeOriginalURL name kind id) = normalizeOriginalURL name kind id.
Proof.
  intros [Hne Hdigits]. destruct id as [|d id' _] using rev_ind; [done|].
  apply Forall_app in Hdigits as [_ Hd]. inversion Hd as [|? ? Hd' _]; subst.
  assert (Hshape : normalizeOriginalURL name kind (id' ++ [d])
    = 104%N :: (lit "ttps://x.com/" ++ name ++ [slash_] ++ kind ++ [slash_] ++ id') ++ [d]).
  { unfold normalizeOriginalURL.
    change (lit "https://x.com/") with (104%N :: lit "ttps://x.com/").
    rewrite <- !app_assoc. reflexivity. }
  rewrite Hshape. apply TrimSpace_keep; [done|]. by apply isDigit_not_space.
Qed.

(** *** The article pattern on a status URL *)

Lemma hasESlashDigit_app_r x y :
  hasESlashDigit y = true -> hasESlashDigit (x ++ y) = true.
Proof.
  intros Hy. induction x as [|c x IH]; [done|].
  cbn [app hasESlashDigit]. rewrite IH. apply orb_true_r.
Qed.

Lemma hasESlashDigit_app_l x y :
  hasESlashDigit x = true -> hasESlashDigit (x ++ y) = true.
Proof.
  induction x as [|c1 x IH]; [done|]. cbn [app hasESlashDigit].
  intros [Hhere|Hlater]%orb_true_iff.
  - destruct (c1 =? 101)%N; [|done].
    destruct x as [|c2 x]; [done|]. cbn [app].
    destruct (c2 =? 47)%N; [|done].
    destruct x as [|c3 x]; [done|]. cbn [app]. by rewrite Hhere.
  - rewrite (IH Hlater). apply orb_true_r.
Qed.

Lemma article_hasESlashDigit pre id post :
  validID id ->
  hasESlashDigit (pre ++ lit "article" ++ [slash_] ++ id ++ post) = true.
Proof.
  intros [Hne Hdigits]. destruct id as [|d id]; [done|].
  inversion Hdigits as [|? ? Hd _]; subst.
  apply hasESlashDigit_app_r.
  change (lit "article" ++ [slash_] ++ (d :: id) ++ post)
    with (lit "articl" ++ 101%N :: 47%N :: d :: id ++ post).
  apply hasESlashDigit_app_r. cbn [hasESlashDigit].
  change (101 =? 101)%N with true. change (47 =? 47)%N with true. cbv iota.
  by rewrite Hd.
Qed.

Lemma digits_no_ESlashDigit id :
  Forall (fun c => isDigit c = true) id -> hasESlashDigit id = false.
Proof.
  induction 1 as [|c id Hc _ IH]; [done|]. cbn [hasESlashDigit]. rewrite IH.
  assert (Hne : (c =? 101)%N = false).
  { unfold isDigit in Hc. apply andb_true_iff in Hc as [_ H2].
    apply N.leb_le in H2. apply N.eqb_neq. lia. }
  by rewrite Hne.
Qed.

Lemma status_no_ESlashDigit name id :
  validScreenName name -> validID id ->
  hasESlashDigit (normalizeOriginalURL name (lit "status") id) = false.
Proof.
  intros [_ Hname] [_ Hid]. unfold normalizeOriginalURL.
  assert (Htail : hasESlashDigit ([slash_] ++ lit "status" ++ [slash_] ++ id) = false).
  { cbn. by apply digits_no_ESlashDigit. }
  assert (Hmid : hasESlashDigit (name ++ [slash_] ++ lit "status" ++ [slash_] ++ id) = false).
  { revert Htail.
    change ([slash_] ++ lit "status" ++ [slash_] ++ id)
      with (47%N :: 115%N :: lit "tatus" ++ [slash_] ++ id).
    generalize (lit "tatus" ++ [slash_] ++ id). intros rest Htail.
    induction Hname as [|c name Hc Hname IH]; [exact Htail|].
    change ((c :: name) ++ 47%N :: 115%N :: rest)
      with (c :: (name ++ 47%N :: 115%N :: rest)).
    cbn [hasESlashDigit]. rewrite IH, orb_false_r.
    destruct (c =? 101)%N; [|done].
    destruct Hname as [|c2 name Hc2 _]; [done|].
    cbn [app]. unfold slash_ in Hc2. by apply N.eqb_neq in Hc2 as ->. }
  revert Hmid. generalize (name ++ [slash_] ++ lit "status" ++ [slash_] ++ id).
  intros l Hl. cbn. exact Hl.
Qed.

Lemma article_not_in_status name id :
  validScreenName name -> validID id ->
  find articleURLPattern (normalizeOriginalURL name (lit "status") id) = None.
Proof.
  intros Hname Hid.
  destruct (find articleURLPattern (normalizeOriginalURL name (lit "status") id))
    as [m|] eqn:Hf; [exfalso|done].
  apply find_urlPattern in Hf as (host & _ & _ & Hid' & Hs).
  pose proof (status_no_ESlashDigit name id Hname Hid) as Hno.
  rewrite Hs in Hno.
  replace (before m ++ host ++ [slash_] ++ submatch m 1 ++ [slash_] ++ lit "article"
           ++ [slash_] ++ submatch m 2 ++ after m)
    with ((before m ++ host ++ [slash_] ++ submatch m 1 ++ [slash_]) ++ lit "article"
          ++ [slash_] ++ submatch m 2 ++ after m) in Hno
    by (by rewrite <- !app_assoc).
  rewrite article_hasESlashDigit in Hno; done.
Qed.

Lemma ParseURL_normalized (t : URLType) (name id : gostring) :
  validScreenName name -> validID id ->
  ParseURL (normalizeOriginalURL name (lit (pathWord t)) id)
  = inr {| UType := t; UScreenName := name; UID := id;
           OriginalURL := normalizeOriginalURL name (lit (pathWord t)) id |}.
Proof.
  intros Hname Hid. unfold ParseURL, FindStringSubmatch.
  rewrite TrimSpace_canonical by done.
  destruct t; cbn [pathWord].
  - rewrite article_not_in_status by done.
    destruct (find_canonical "status" name id Hname Hid) as (m & Hm & H1 & H2).
    unfold tweetURLPattern. by rewrite Hm, H1, H2.
  - destruct (find_canonical "article" name id Hname Hid) as (m & Hm & H1 & H2).
    unfold articleURLPattern. by rewrite Hm, H1, H2.
Qed.

(** X6. The canonical URL is a fixed point of the parser: the x.com form
    of a screen name, a path word and an id parses to these three and to
    itself; so what [ParseURL] returns for any input, it also returns for
    the [OriginalURL] it has built. *)
Theorem ParseURL_canonical :
  (forall (t : URLType) (name id : gostring),
     validScreenName name -> validID id ->
     ParseURL (normalizeOriginalURL name (lit (pathWord t)) id)
     = inr {| UType := t; UScreenName := name; UID := id;
              OriginalURL := normalizeOriginalURL name (lit (pathWord t)) id |}) /\
  (forall (rawURL : gostring) (info : URLInfo),
     ParseURL rawURL = inr info -> ParseURL (OriginalURL info) = inr info).
Proof.
  split; [exact ParseURL_normalized|].
  intros rawURL info. unfold ParseURL at 1. unfold FindStringSubmatch.
  destruct (find articleURLPattern (TrimSpace rawURL)) as [m|] eqn:Ha.
  - intros [= <-]. cbn [OriginalURL].
    apply find_urlPattern in Ha as (_ & _ & Hname & Hid & _).
    exact (ParseURL_normalized URLTypeArticle _ _ Hname Hid).
  - destruct (find tweetURLPattern (TrimSpace rawURL)) as [m|] eqn:Ht; [|done].
    intros [= <-]. cbn [OriginalURL].
    apply find_urlPattern in Ht as (_ & _ & Hname & Hid & _).
    exact (ParseURL_normalized URLTypeTweet _ _ Hname Hid).
Qed.

(** ** Text without markup *)

Lemma firstClass_sound r : forall p s cs k res,
  firstClass r = Some p -> rmatch r s cs k = Some res ->
  exists c s', s = c :: s' /\ p c = true.
Proof.
  induction r as [|q|a IHa b IHb|a IHa b IHb|greedy q|a IHa|i a IHa];
    intros p s cs k res; cbn [firstClass rmatch]; try discriminate.
  - intros [= <-]. destruct s as [|c s']; [done|].
    destruct (q c) eqn:Hq; [|done]. intros _. by exists c, s'.
  - intros Hp Hm. by apply (IHa _ _ _ _ _ Hp Hm).
  - intros Hp Hm. by apply (IHa _ _ _ _ _ Hp Hm).
Qed.

(** An expression that starts with the rune [x] is not found in a text
    without [x]. *)
Lemma find_without x r s :
  startsWith x r -> Forall (fun c => c <> x) s -> find r s = None.
Proof.
  intros (p & Hp & Hpx) Hs. unfold find. generalize (@nil N).
  induction Hs as [|c s Hc Hs IH]; intros skipped; cbn [findFrom].
  - destruct (matchHere r []) as [[rest cs]|] eqn:Hm; [exfalso|done].
    by apply (firstClass_sound _ _ _ _ _ _ Hp) in Hm as (c & s' & ? & _).
  - destruct (matchHere r (c :: s)) as [[rest cs]|] eqn:Hm; [exfalso|apply IH].
    apply (firstClass_sound _ _ _ _ _ _ Hp) in Hm as (c' & s' & [= <- <-] & Hc').
    by apply Hpx in Hc'.
Qed.

Lemma replaceAll_not_found r repl s : find r s = None -> replaceAll r repl s = s.
Proof. intros Hf. unfold replaceAll. cbn [replaceLoop]. by rewrite Hf. Qed.

Lemma ReplaceAllStringFunc_without x r s f :
  startsWith x r -> Forall (fun c => c <> x) s -> ReplaceAllStringFunc r s f = s.
Proof. intros Hr Hs. apply replaceAll_not_found. by apply (find_without x). Qed.

Lemma ReplaceAllString_without x r s template :
  startsWith x r -> Forall (fun c => c <> x) s -> ReplaceAllString r s template = s.
Proof. intros Hr Hs. apply replaceAll_not_found. by apply (find_without x). Qed.

Lemma equalFold_lt c : equalFold lt_ c = true -> c = lt_.
Proof.
  unfold equalFold, lt_. destruct (N.eqb_spec c 60) as [->|Hne]; [done|].
  cbn. done.
Qed.

Lemma isRune_eq x c : isRune x c = true -> c = x.
Proof. unfold isRune. by intros ?%N.eqb_eq. Qed.

Lemma startsWith_element name : startsWith lt_ (element name).
Proof. exists (equalFold lt_). split; [reflexivity|exact equalFold_lt]. Qed.

Lemma startsWith_eitherElement a b : startsWith lt_ (eitherElement a b).
Proof. exists (isRune lt_). split; [reflexivity|apply isRune_eq]. Qed.

Lemma replaceCRLF_Forall (P : N -> Prop) s :
  P nl -> Forall P s -> Forall P (replaceCRLF s).
Proof.
  intros Hnl Hs. induction Hs as [|c s Hc Hs IH]; [constructor|].
  cbn [replaceCRLF]. destruct (c =? 13)%N; [|by constructor].
  destruct Hs as [|d s Hd Hs]; [by repeat constructor|].
  destruct (d =? 10)%N eqn:Hd10; [|by constructor].
  constructor; [done|].
  cbn [replaceCRLF] in IH. apply N.eqb_eq in Hd10 as ->.
  change (10 =? 13)%N with false in IH. cbv iota in IH. by inversion IH.
Qed.

Lemma replaceCR_Forall (P : N -> Prop) s :
  P nl -> Forall P s -> Forall P (replaceCR s).
Proof.
  intros Hnl Hs. unfold replaceCR. apply Forall_map.
  eapply Forall_impl; [exact Hs|]. intros c Hc. cbn. by destruct (c =? 13)%N.
Qed.

Ltac starts_with_lt :=
  first [ exists (equalFold lt_); split; [reflexivity|exact equalFold_lt]
        | exists (isRune lt_); split; [reflexivity|apply isRune_eq] ].

(** X7. Text without a [<] passes every tag pass of [HTMLToMarkdown]
    unchanged: the result is the text with its line ends normalised, its
    entities decoded and its white space cleaned and trimmed. *)
Theorem HTMLToMarkdown_plain (decodeEntities : gostring -> gostring) (htmlStr : gostring) :
  Forall (fun c => c <> lt_) htmlStr ->
  HTMLToMarkdown decodeEntities htmlStr
  = TrimSpace (cleanWhitespace
      (UnescapeString decodeEntities (replaceCR (replaceCRLF htmlStr)))).
Proof.
  intros Hs.
  assert (Hplain : Forall (fun c => c <> lt_) (replaceCR (replaceCRLF htmlStr))).
  { apply replaceCR_Forall; [done|]. by apply replaceCRLF_Forall. }
  unfold HTMLToMarkdown. revert Hplain.
  generalize (replaceCR (replaceCRLF htmlStr)). intros s Hplain.
  unfold processPreBlocks, processHeadings, processHeading, processBlockquotes,
    processLists, processParagraphs, processHorizontalRules, processLinks,
    processImages, processBold, processItalic, processInlineCode,
    processLineBreaks, stripTags.
  repeat match goal with
  | |- context [ReplaceAllStringFunc ?re s ?f] =>
      rewrite (ReplaceAllStringFunc_without lt_ re s f) by (done || starts_with_lt)
  | |- context [ReplaceAllString ?re s ?t] =>
      rewrite (ReplaceAllString_without lt_ re s t) by (done || starts_with_lt)
  end.
  reflexivity.
Qed.

Lemma HTMLToMarkdown_plain_witness :
  Forall (fun c => c <> lt_) (lit "a > b  " ++ [13%N; 10%N; 13%N; 13%N; nl] ++ lit "c ") /\
  HTMLToMarkdown (fun s => s) (lit "a > b  " ++ [13%N; 10%N; 13%N; 13%N; nl] ++ lit "c ")
  = lit "a > b" ++ [nl; nl] ++ lit "c".
Proof.
  assert (Hs : Forall (fun c => c <> lt_)
                 (lit "a > b  " ++ [13%N; 10%N; 13%N; 13%N; nl] ++ lit "c ")).
  { apply Forall_forall. intros c Hc Heq. subst c. revert Hc. vm_compute.
    intros Hc. repeat (apply elem_of_cons in Hc as [Hc|Hc]; [discriminate|]).
    by apply elem_of_nil in Hc. }
  split; [exact Hs|].
  rewrite (HTMLToMarkdown_plain _ _ Hs). vm_compute. reflexivity.
Defined.

(** ** Trimmed output *)

Lemma TrimLeftSpace_head s c : head (TrimLeftSpace s) = Some c -> isSpace c = false.
Proof.
  induction s as [|d s IH]; [done|]. cbn [TrimLeftSpace].
  destruct (isSpace d) eqn:Hd; [exact IH|]. by intros [= <-].
Qed.

Lemma TrimLeftSpace_suffix s : exists pre, s = pre ++ TrimLeftSpace s.
Proof.
  induction s as [|d s [pre IH]]; [by exists []|]. cbn [TrimLeftSpace].
  destruct (isSpace d); [|by exists []].
  exists (d :: pre). cbn [app]. by rewrite <- IH.
Qed.

Lemma last_rev_head {A} (l : list A) : last (rev l) = head l.
Proof. destruct l as [|x l]; [done|]. cbn [rev head]. apply last_snoc. Qed.

Lemma TrimSpace_trimmed s : trimmed (TrimSpace s).
Proof.
  unfold TrimSpace. split; intros c Hc.
  - destruct (TrimLeftSpace_suffix (rev (TrimLeftSpace s))) as [pre Hpre].
    apply (f_equal (@rev N)) in Hpre. rewrite rev_involutive, rev_app_distr in Hpre.
    apply (TrimLeftSpace_head s). rewrite Hpre.
    destruct (rev (TrimLeftSpace (rev (TrimLeftSpace s)))); [done|exact Hc].
  - rewrite last_rev_head in Hc. by apply TrimLeftSpace_head in Hc.
Qed.

(** X8. Both renderers return trimmed text: neither the Markdown of a
    Draft.js document nor the Markdown of an HTML fragment starts or ends
    with a white-space rune. *)
Theorem renderers_trimmed `{SliceSorter} :
  (forall content mediaEntities, trimmed (DraftJSToMarkdown content mediaEntities)) /\
  (forall decodeEntities htmlStr, trimmed (HTMLToMarkdown decodeEntities htmlStr)).
Proof.
  split.
  - intros content mediaEntities. unfold DraftJSToMarkdown.
    destruct content as [c|]; [|done].
    destruct (Blocks c) as [|b bs]; [done|].
    destruct (renderBlocks _ _ _ _) as [parts counter]. apply TrimSpace_trimmed.
  - intros decodeEntities htmlStr. apply TrimSpace_trimmed.
Qed.

(** ** Styles without a marker *)

Lemma inserted_empty ms out text :
  inserted ms out text -> Forall (fun m => m = []) ms -> out = text.
Proof.
  induction 1 as [|c ms out text _ IH|m ms out text _ IH]; intros Hall.
  - done.
  - f_equal. by apply IH.
  - inversion Hall as [|? ? Hm Hms]; subst. cbn [app]. by apply IH.
Qed.

Lemma collectEvents_style n styles e :
  e ∈ collectEvents n styles -> exists s, s ∈ styles /\ style e = Style s.
Proof.
  unfold collectEvents. intros He%list_elem_of_In%in_flat_map.
  destruct He as (s & Hs & He). exists s. split; [by apply list_elem_of_In|].
  destruct He as [<-|[<-|[]]]; done.
Qed.

Section Unstyled.
Context `{SliceSorter}.

(** X10. Ranges whose style names have no marker, that is every name but
    Bold, Italic and Code in their two spellings, leave the text as it
    is, wherever the ranges lie. *)
Theorem markerless_styles_keep_text (text : gostring) (styles : list InlineStyleRange) :
  Forall (fun s => styleMarker (Style s) = []) styles ->
  applyInlineStyles text styles = text.
Proof.
  intros Hall. unfold applyInlineStyles. destruct styles as [|s0 styles]; [done|].
  set (evs := sortSlice (collectEvents (Z.of_nat (length text)) (s0 :: styles))).
  destruct (sweep_inserted text 0 evs) as (es & Hsplit & Hins).
  apply (inserted_empty _ _ _ Hins).
  apply Forall_map, Forall_forall. intros e He.
  assert (Hin : e ∈ collectEvents (Z.of_nat (length text)) (s0 :: styles)).
  { rewrite <- (sortSlice_perm _). fold evs. rewrite Hsplit.
    apply elem_of_app. by left. }
  apply collectEvents_style in Hin as (s & Hs & Hstyle).
  unfold markerOf. rewrite Hstyle.
  rewrite Forall_forall in Hall. by apply Hall.
Qed.
End Unstyled.

Lemma markerless_styles_keep_text_witness :
  Forall (fun s => styleMarker (Style s) = [])
    [mkStyle 1 2 "Underline"; mkStyle (-3) 9 "Strikethrough"] /\
  applyInlineStyles (lit "abcd") [mkStyle 1 2 "Underline"; mkStyle (-3) 9 "Strikethrough"]
  = lit "abcd".
Proof.
  assert (Hall : Forall (fun s => styleMarker (Style s) = [])
                   [mkStyle 1 2 "Underline"; mkStyle (-3) 9 "Strikethrough"]).
  { repeat constructor. }
  split; [exact Hall|].
  exact (markerless_styles_keep_text (lit "abcd") _ Hall).
Defined.

(** ** The entity lookup *)

Lemma buildEntityLookup_snoc items item :
  buildEntityLookup (items ++ [item])
  = <[ItemKey item := Value item]> (buildEntityLookup items).
Proof. unfold buildEntityLookup. by rewrite fold_left_app. Qed.

(** X11. The entity lookup is built by map insertion in list order: a key
    maps to the value of the last item of the entity map that bears it,
    and is absent when no item bears it. *)
Theorem buildEntityLookup_last_wins (items : list EntityMapItem) (k : Z) :
  buildEntityLookup items !! k
  = Value <$> last (filter (fun item => ItemKey item = k) items).
Proof.
  induction items as [|item items IH] using rev_ind; [done|].
  rewrite buildEntityLookup_snoc, filter_app.
  destruct (decide (ItemKey item = k)) as [Hk|Hk].
  - rewrite filter_cons_True by done. rewrite filter_nil, last_snoc. cbn.
    rewrite <- Hk. apply lookup_insert_eq.
  - rewrite filter_cons_False by done. rewrite filter_nil, app_nil_r.
    by rewrite lookup_insert_ne.
Qed.

(** ** Media entities *)

Lemma Join_nil_inv parts sep :
  Join parts sep = [] -> Forall (fun p => p = []) parts.
Proof.
  induction parts as [|p parts IH]; [constructor|].
  destruct parts as [|q parts]; cbn [Join].
  - intros ->. by repeat constructor.
  - intros [-> Hrest]%app_eq_nil. apply app_eq_nil in Hrest as [_ Hrest].
    constructor; [done|]. by apply IH.
Qed.

Lemma images_fold (mediaLookup : gmap (list N) (list N)) refs : forall acc,
  fold_left (fun images ref =>
    match mediaLookup !! RefMediaID ref with
    | Some url => images ++ [lit "![image](" ++ url ++ lit ")"]
    | None => images
    end) refs acc
  = acc ++ omap (fun ref =>
      (fun url => lit "![image](" ++ url ++ lit ")") <$> mediaLookup !! RefMediaID ref) refs.
Proof.
  induction refs as [|ref refs IH]; intros acc; cbn [fold_left].
  - cbn. by rewrite app_nil_r.
  - rewrite IH. cbn [omap list_omap].
    destruct (mediaLookup !! RefMediaID ref) as [url|]; cbn [fmap option_fmap option_map];
      [|done].
    by rewrite <- app_assoc.
Qed.

(** X12. A MEDIA entity renders as the empty string exactly when none of
    its media items has an entry in the media lookup; otherwise the
    fragment is the image lines of the items that have one, in item order,
    separated by blank lines. *)
Theorem renderMediaEntity_empty_iff
    (entity : EntityValue) (mediaLookup : gmap (list N) (list N)) :
  (renderMediaEntity entity mediaLookup = [] <->
   Forall (fun ref => mediaLookup !! RefMediaID ref = None) (MediaItems (Data entity))) /\
  renderMediaEntity entity mediaLookup
  = Join (omap (fun ref =>
            (fun url => lit "![image](" ++ url ++ lit ")") <$> mediaLookup !! RefMediaID ref)
            (MediaItems (Data entity))) [nl; nl].
Proof.
  assert (Hform : renderMediaEntity entity mediaLookup
    = Join (omap (fun ref =>
              (fun url => lit "![image](" ++ url ++ lit ")") <$> mediaLookup !! RefMediaID ref)
              (MediaItems (Data entity))) [nl; nl]).
  { unfold renderMediaEntity. by rewrite images_fold. }
  split; [|exact Hform]. rewrite Hform. clear Hform.
  generalize (MediaItems (Data entity)). intros items. split.
  - intros Hnil%Join_nil_inv.
    induction items as [|ref refs IH]; [constructor|].
    cbn [omap list_omap] in Hnil.
    destruct (mediaLookup !! RefMediaID ref) as [url|] eqn:Hurl;
      cbn [fmap option_fmap option_map] in Hnil.
    + inversion Hnil as [|? ? Himg _]. discriminate Himg.
    + constructor; [done|]. exact (IH Hnil).
  - intros Hall. induction Hall as [|ref refs Href _ IH]; [done|].
    cbn [omap list_omap]. rewrite Href. exact IH.
Qed.

(** ** Front matter *)

Lemma escaped_cons c s :
  ReplaceAllRune (ReplaceAllRune (c :: s) backslash_ [backslash_; backslash_])
    quote_ [backslash_; quote_]
  = escapedRune c
    ++ ReplaceAllRune (ReplaceAllRune s backslash_ [backslash_; backslash_])
         quote_ [backslash_; quote_].
Proof.
  unfold ReplaceAllRune, escapedRune. cbn [flat_map]. rewrite flat_map_app. f_equal.
  destruct (c =? backslash_)%N eqn:Hb; [done|]. cbn [flat_map].
  rewrite app_nil_r. done.
Qed.

Lemma escapedRune_not_nil c : escapedRune c <> [].
Proof. unfold escapedRune. by repeat case_match. Qed.

(** The escaping can be undone: it maps different texts to different
    texts. *)
Lemma escaped_inj s : forall t,
  ReplaceAllRune (ReplaceAllRune s backslash_ [backslash_; backslash_])
    quote_ [backslash_; quote_]
  = ReplaceAllRune (ReplaceAllRune t backslash_ [backslash_; backslash_])
      quote_ [backslash_; quote_] ->
  s = t.
Proof.
  induction s as [|c s IH]; intros [|d t]; rewrite ?escaped_cons.
  - done.
  - intros Heq. symmetry in Heq. apply app_eq_nil in Heq as [Heq _].
    by apply escapedRune_not_nil in Heq.
  - intros Heq. apply app_eq_nil in Heq as [Heq _].
    by apply escapedRune_not_nil in Heq.
  - unfold escapedRune, backslash_, quote_.
    destruct (N.eqb_spec c 92) as [->|Hc1]; [|destruct (N.eqb_spec c 34) as [->|Hc2]];
      (destruct (N.eqb_spec d 92) as [->|Hd1]; [|destruct (N.eqb_spec d 34) as [->|Hd2]]);
      cbn [app]; intros Heq; injection Heq; intros; subst;
      try done; f_equal; by apply IH.
Qed.

Lemma plain_not_quoted s :
  ContainsAny s yamlSpecial = false -> head s <> Some quote_.
Proof.
  destruct s as [|c s]; [done|]. intros Hc [= ->].
  unfold ContainsAny in Hc. cbn [existsb] in Hc.
  apply orb_false_iff in Hc as [Hc _]. by vm_compute in Hc.
Qed.

(** X13. [yamlEscape] maps different values to different YAML scalars:
    the empty string, the quoted strings and the strings left as they are
    never collide, and the escaping of backslashes and double quotes
    inside the quotes can be undone. *)
Theorem yamlEscape_injective (s t : gostring) :
  yamlEscape s = yamlEscape t -> s = t.
Proof.
  assert (Hquoted_empty : forall u : gostring, u <> [] ->
    [quote_] ++ ReplaceAllRune (ReplaceAllRune u backslash_ [backslash_; backslash_])
                  quote_ [backslash_; quote_] ++ [quote_]
    <> [quote_; quote_]).
  { intros [|c u] Hu Heq; [done|]. rewrite escaped_cons in Heq.
    pose proof (escapedRune_not_nil c) as Hne.
    destruct (escapedRune c) as [|x [|y r]]; [done| |];
      cbn [app] in Heq; injection Heq; intros Hrest.
    - by destruct (ReplaceAllRune _ _ _).
    - done. }
  unfold yamlEscape.
  destruct s as [|c s], t as [|d t]; cbn [isNil].
  - done.
  - destruct (ContainsAny (d :: t) yamlSpecial) eqn:Ht.
    + intros Heq. symmetry in Heq. by apply Hquoted_empty in Heq.
    + intros [= <- _]. by apply plain_not_quoted in Ht.
  - destruct (ContainsAny (c :: s) yamlSpecial) eqn:Hs.
    + intros Heq. by apply Hquoted_empty in Heq.
    + intros [= -> _]. by apply plain_not_quoted in Hs.
  - destruct (ContainsAny (c :: s) yamlSpecial) eqn:Hs,
             (ContainsAny (d :: t) yamlSpecial) eqn:Ht.
    + cbn [app]. intros [= Heq]. apply app_inj_tail in Heq as [Heq _].
      by apply escaped_inj.
    + cbn [app]. intros [= <- _]. by apply plain_not_quoted in Ht.
    + cbn [app]. intros [= -> _]. by apply plain_not_quoted in Hs.
    + done.
Qed.

Lemma yamlEscape_injective_witness :
  yamlEscape (lit "a: " ++ [quote_] ++ lit "b" ++ [backslash_])
  = [quote_] ++ lit "a: " ++ [backslash_; quote_] ++ lit "b" ++ [backslash_; backslash_]
    ++ [quote_] /\
  (lit "a: " ++ [quote_] ++ lit "b" ++ [backslash_]
   = lit "a: " ++ [quote_] ++ lit "b" ++ [backslash_]).
Proof.
  split; [vm_compute; reflexivity|].
  apply yamlEscape_injective. reflexivity.
Defined.
